(** * MTFindProd: modular product of an array, sequentially and with threads

    A shallow embedding of [Assignment 3/MTFindProd.c].  The C [int] is a
    32-bit two's complement integer: values are in [Z] and the [+], [-]
    and [*] of the source on data are followed by the wrap-around
    [Int.wrap]; [/] and [%] are C's truncating division and remainder
    ([Z.quot], [Z.rem]).  A [for] loop runs over the number of its
    iterations, its counter staying below its bound.  Arrays are lists read
    and updated by index; the global variables are the fields of the record
    [Shared], passed from call to call. *)

From Stdlib Require Import ZArith Lia Zdivisibility.
From stdpp Require Import list strings relations.

Local Open Scope Z_scope.

(** ** Constants of the source *)

Definition MAX_SIZE : Z := 100000000.
Definition MAX_THREADS : Z := 16.
Definition RANDOM_SEED : Z := 7649.
Definition MAX_RANDOM_NUMBER : Z := 3000.
Definition NUM_LIMIT : Z := 9973.

(** ** The C [int] *)

Module Int.

Definition min_int : Z := - 2147483648.
Definition max_int : Z := 2147483647.

(** Reduction of a mathematical integer to the 32-bit signed range. *)
Definition wrap (z : Z) : Z := (z + 2147483648) mod 4294967296 - 2147483648.

Definition add (a b : Z) : Z := wrap (a + b).
Definition sub (a b : Z) : Z := wrap (a - b).
Definition mul (a b : Z) : Z := wrap (a * b).

Definition in_range (z : Z) : Prop := min_int <= z <= max_int.

End Int.

(** ** Arrays

    [a[i]] for an index inside the array.  The code never reads outside
    (each theorem states the bound it relies on); there the model yields 0. *)

Definition array_get (a : list Z) (i : Z) : Z :=
  if decide (0 <= i) then default 0 (a !! Z.to_nat i) else 0.

(** [a[i] = v]; a store outside the array is dropped. *)
Definition array_set {A} (a : list A) (i : Z) (v : A) : list A :=
  if decide (0 <= i) then <[Z.to_nat i := v]> a else a.

(** The cells [a[i]], ..., [a[i + n - 1]]. *)
Definition cells (a : list Z) (i : Z) (n : nat) : list Z :=
  array_get a <$> seqZ i (Z.of_nat n).

(** The mathematical product of a list of integers. *)
Definition list_product (l : list Z) : Z := foldr Z.mul 1 l.

(** ** Global variables *)

Inductive sem := Completed | Mutex.

Record Shared := mkShared {
  gData : list Z;             (* int gData[MAX_SIZE] *)
  gThreadCount : Z;
  gDoneThreadCount : Z;
  gThreadProd : list Z;       (* int gThreadProd[MAX_THREADS] *)
  gThreadDone : list bool;    (* bool gThreadDone[MAX_THREADS] *)
  completed : Z;              (* value of the semaphore [completed] *)
  mutex : Z                   (* value of the semaphore [mutex] *)
}.

Definition set_gData (v : list Z) (st : Shared) : Shared :=
  mkShared v (gThreadCount st) (gDoneThreadCount st) (gThreadProd st)
           (gThreadDone st) (completed st) (mutex st).

Definition set_gThreadCount (v : Z) (st : Shared) : Shared :=
  mkShared (gData st) v (gDoneThreadCount st) (gThreadProd st)
           (gThreadDone st) (completed st) (mutex st).

Definition set_gDoneThreadCount (v : Z) (st : Shared) : Shared :=
  mkShared (gData st) (gThreadCount st) v (gThreadProd st)
           (gThreadDone st) (completed st) (mutex st).

Definition set_gThreadProd (v : list Z) (st : Shared) : Shared :=
  mkShared (gData st) (gThreadCount st) (gDoneThreadCount st) v
           (gThreadDone st) (completed st) (mutex st).

Definition set_gThreadDone (v : list bool) (st : Shared) : Shared :=
  mkShared (gData st) (gThreadCount st) (gDoneThreadCount st) (gThreadProd st)
           v (completed st) (mutex st).

Definition sem_value (s : sem) (st : Shared) : Z :=
  match s with Completed => completed st | Mutex => mutex st end.

Definition set_sem (s : sem) (v : Z) (st : Shared) : Shared :=
  match s with
  | Completed =>
      mkShared (gData st) (gThreadCount st) (gDoneThreadCount st)
               (gThreadProd st) (gThreadDone st) v (mutex st)
  | Mutex =>
      mkShared (gData st) (gThreadCount st) (gDoneThreadCount st)
               (gThreadProd st) (gThreadDone st) (completed st) v
  end.

(** [sem_post]: the value of the semaphore goes up by one. *)
Definition sem_post (s : sem) (st : Shared) : Shared :=
  set_sem s (sem_value s st + 1) st.

(** [sem_wait]: takes one unit if the value is positive; [None] when the
    caller would block. *)
Definition sem_wait (s : sem) (st : Shared) : option Shared :=
  if decide (0 < sem_value s st) then Some (set_sem s (sem_value s st - 1) st)
  else None.

(** ** Sequential reducer *)

(** One step of a running product: [(product * x) % NUM_LIMIT]. *)
Definition mod_step (product x : Z) : Z :=
  Z.rem (Int.mul product x) NUM_LIMIT.

(** The loop of [SqFindProd], at index [i] with [n] iterations left and
    the running [product].  The first component lists the indices of the
    cells of [gData] the loop has read, in order. *)
Fixpoint SqFindProd_loop (gData : list Z) (n : nat) (i product : Z)
  : list Z * Z :=
  match n with
  | O => ([], product)
  | S n' =>
      if decide (array_get gData i = 0) then ([i], 0)
      else
        let '(reads, r) :=
          SqFindProd_loop gData n' (i + 1)
                          (mod_step product (array_get gData i)) in
        (i :: reads, r)
  end.

Definition SqFindProd_run (gData : list Z) (size : Z) : list Z * Z :=
  SqFindProd_loop gData (Z.to_nat size) 0 1.

Definition SqFindProd (gData : list Z) (size : Z) : Z :=
  (SqFindProd_run gData size).2.

(** Cells of [gData] examined by [SqFindProd], in the order of the reads. *)
Definition SqFindProd_reads (gData : list Z) (size : Z) : list Z :=
  (SqFindProd_run gData size).1.

(** Factors for which [product * x] stays inside the [int] range whenever
    [product] is a remainder modulo [NUM_LIMIT]. *)
Definition safe_factor (x : Z) : Prop :=
  (NUM_LIMIT - 1) * Z.abs x <= Int.max_int.

(** A running product is a remainder: strictly between [- NUM_LIMIT] and
    [NUM_LIMIT]. *)
Definition reduced (p : Z) : Prop := Z.abs p < NUM_LIMIT.

(** ** Thread routines *)

(** What a thread does that another thread or the terminal can see. *)
Inductive action :=
| Printf (threadNum start end_ : Z)
| StoreProd (slot v : Z)          (* gThreadProd[slot] = v *)
| SemWait (s : sem)
| SemPost (s : sem)
| IncrDone.                       (* gDoneThreadCount++ *)

(** A thread's parameter block [{threadNum, start, end}]. *)
Definition param : Type := Z * Z * Z.

(** Number of iterations of [for (i = start; i <= end; i++)]. *)
Definition span (start end_ : Z) : nat := Z.to_nat (end_ - start + 1).

(** The empty loop of [ThFindProd]. *)
Fixpoint ThFindProd_loop (n : nat) (st : Shared) : Shared :=
  match n with
  | O => st
  | S n' => ThFindProd_loop n' st
  end.

Definition ThFindProd (p : param) (st : Shared) : list action * Shared :=
  let '(threadNum, start, end_) := p in
  ([Printf threadNum start end_], ThFindProd_loop (span start end_) st).

(** The value the scanning loops of [SqFindProd] and of
    [ThFindProdWithSemaphore] compute from index [i], [n] iterations left,
    without the record of their reads; the lemmas on the value of a scan
    are stated on it. *)
Fixpoint segment_scan (gData : list Z) (n : nat) (i localProd : Z) : Z :=
  match n with
  | O => localProd
  | S n' =>
      if decide (array_get gData i = 0) then 0
      else segment_scan gData n' (i + 1) (mod_step localProd (array_get gData i))
  end.

(** The loop of [ThFindProdWithSemaphore], at index [i] with [n]
    iterations left and the running [localProd].  The first component
    lists the indices of the cells of [gData] the loop has read, in order:
    on a cell that is 0 the loop sets [localProd] to 0 and leaves by
    [break], so that cell is the last one read. *)
Fixpoint ThFindProdWithSemaphore_loop (gData : list Z) (n : nat)
    (i localProd : Z) : list Z * Z :=
  match n with
  | O => ([], localProd)
  | S n' =>
      if decide (array_get gData i = 0) then ([i], 0)
      else
        let '(reads, r) :=
          ThFindProdWithSemaphore_loop gData n' (i + 1)
            (mod_step localProd (array_get gData i)) in
        (i :: reads, r)
  end.

(** The scan of the segment [start..end] by a worker: the cells read and
    the value of [localProd] after the loop. *)
Definition segment_run (gData : list Z) (start end_ : Z) : list Z * Z :=
  ThFindProdWithSemaphore_loop gData (span start end_) start 1.

Definition segment_product (gData : list Z) (start end_ : Z) : Z :=
  (segment_run gData start end_).2.


(** One call of [ThFindProdWithSemaphore] run without another thread
    stepping in between; [None] when [sem_wait(&mutex)] would block. *)
Definition ThFindProdWithSemaphore (p : param) (st : Shared)
  : option (list action * Shared) :=
  let '(threadNum, start, end_) := p in
  let localProd := segment_product (gData st) start end_ in
  let st := set_gThreadProd (array_set (gThreadProd st) threadNum localProd) st in
  if decide (localProd = 0) then
    Some ([StoreProd threadNum localProd; SemPost Completed],
          sem_post Completed st)
  else
    match sem_wait Mutex st with
    | None => None
    | Some st =>
        let st := set_gDoneThreadCount (Int.add (gDoneThreadCount st) 1) st in
        if decide (gDoneThreadCount st = gThreadCount st) then
          Some ([StoreProd threadNum localProd; SemWait Mutex; IncrDone;
                 SemPost Completed; SemPost Mutex],
                sem_post Mutex (sem_post Completed st))
        else
          Some ([StoreProd threadNum localProd; SemWait Mutex; IncrDone;
                 SemPost Mutex],
                sem_post Mutex st)
    end.

Definition is_store (a : action) : bool :=
  match a with StoreProd _ _ => true | _ => false end.



(** The workers of a round run one after the other, each to its end:
    one of the schedules of the threads. *)
Fixpoint run_in_turn (ps : list param) (st : Shared) : option Shared :=
  match ps with
  | [] => Some st
  | p :: ps' =>
      match ThFindProdWithSemaphore p st with
      | Some (_, st') => run_in_turn ps' st'
      | None => None
      end
  end.

(** *** The same routine, one shared access at a time

    Where a thread stands in [ThFindProdWithSemaphore].  The scan reads
    [gData] only, which no thread writes during a round, so the scan and
    the store of its result make the first step. *)
Inductive pc :=
| AtStart                     (* before the scan *)
| AtBranch (localProd : Z)    (* stored, at [if (localProd == 0)] *)
| AtIncr                      (* past [sem_wait(&mutex)] *)
| AtCheck                     (* past [gDoneThreadCount++] *)
| AtUnlock                    (* at [sem_post(&mutex)] *)
| Finished.

Definition worker_step (p : param) (l : pc) (st : Shared)
  : option (list action * pc * Shared) :=
  let '(threadNum, start, end_) := p in
  match l with
  | AtStart =>
      let localProd := segment_product (gData st) start end_ in
      Some ([StoreProd threadNum localProd], AtBranch localProd,
            set_gThreadProd (array_set (gThreadProd st) threadNum localProd) st)
  | AtBranch localProd =>
      if decide (localProd = 0)
      then Some ([SemPost Completed], Finished, sem_post Completed st)
      else match sem_wait Mutex st with
           | Some st => Some ([SemWait Mutex], AtIncr, st)
           | None => None
           end
  | AtIncr =>
      Some ([IncrDone], AtCheck,
            set_gDoneThreadCount (Int.add (gDoneThreadCount st) 1) st)
  | AtCheck =>
      if decide (gDoneThreadCount st = gThreadCount st)
      then Some ([SemPost Completed], AtUnlock, sem_post Completed st)
      else Some ([], AtUnlock, st)
  | AtUnlock => Some ([SemPost Mutex], Finished, sem_post Mutex st)
  | Finished => None
  end.

(** A thread steps on until it has finished, no other thread in between. *)
Fixpoint run_steps (fuel : nat) (p : param) (l : pc) (st : Shared)
  : option (list action * Shared) :=
  match l, fuel with
  | Finished, _ => Some ([], st)
  | _, O => None
  | _, S fuel' =>
      match worker_step p l st with
      | None => None
      | Some (acts, l', st') =>
          match run_steps fuel' p l' st' with
          | Some (acts', st'') => Some (acts ++ acts', st'')
          | None => None
          end
      end
  end.

Definition in_critical (l : pc) : bool :=
  match l with AtIncr | AtCheck | AtUnlock => true | _ => false end.

(** 1 for a thread between its wait and its post on the mutex. *)
Definition critical_weight (l : pc) : Z := if in_critical l then 1 else 0.

(** The threads of a round: the globals and where each thread stands.
    Thread [i] runs on [params[i]]; any thread that can step may be the
    next to step. *)
Definition system : Type := Shared * list pc.

Inductive sys_step (params : list param) : system -> system -> Prop :=
| thread_step (i : nat) p l acts l' st st' (pcs : list pc) :
    params !! i = Some p -> pcs !! i = Some l ->
    worker_step p l st = Some (acts, l', st') ->
    sys_step params (st, pcs) (st', <[i := l']> pcs).

(** The mutex is free and no thread is between its wait and its post, or
    it is taken and one thread only is. *)
Definition mutex_inv (s : system) : Prop :=
  (mutex s.1 = 1 /\
   forall (j : nat) l, s.2 !! j = Some l -> in_critical l = false)
  \/
  (mutex s.1 = 0 /\
   exists (i : nat) l,
     s.2 !! i = Some l /\ (in_critical l = true) /\
     forall (j : nat) l', j <> i -> s.2 !! j = Some l' -> in_critical l' = false).

(** ** Aggregation and initialisation *)

Fixpoint ComputeTotalProduct_loop (gThreadProd : list Z) (n : nat) (i prod : Z)
  : Z :=
  match n with
  | O => prod
  | S n' =>
      ComputeTotalProduct_loop gThreadProd n' (i + 1)
                               (mod_step prod (array_get gThreadProd i))
  end.

Definition ComputeTotalProduct (st : Shared) : Z :=
  ComputeTotalProduct_loop (gThreadProd st) (Z.to_nat (gThreadCount st)) 0 1.

Fixpoint InitSharedVars_loop (n : nat) (i : Z) (st : Shared) : Shared :=
  match n with
  | O => st
  | S n' =>
      let st := set_gThreadDone (array_set (gThreadDone st) i false) st in
      let st := set_gThreadProd (array_set (gThreadProd st) i 1) st in
      InitSharedVars_loop n' (i + 1) st
  end.

Definition InitSharedVars (st : Shared) : Shared :=
  set_gDoneThreadCount 0
    (InitSharedVars_loop (Z.to_nat (gThreadCount st)) 0 st).

(** ** Partitioner *)

(** The loop of [CalculateIndices]; a row of [indices] is
    [{division, start, end}]. *)
Fixpoint CalculateIndices_loop (divisionSize : Z) (n : nat)
    (i currentStart remainder : Z) (indices : list param) : list param :=
  match n with
  | O => indices
  | S n' =>
      let extra := if decide (remainder > 0) then 1 else 0 in
      let end_ := Int.sub (Int.add (Int.add currentStart divisionSize) extra) 1 in
      CalculateIndices_loop divisionSize n' (i + 1)
        (Int.add end_ 1) (Int.sub remainder extra)
        (array_set indices i (i, currentStart, end_))
  end.

Definition CalculateIndices (arraySize thrdCnt : Z) (indices : list param)
  : list param :=
  CalculateIndices_loop (Z.quot arraySize thrdCnt) (Z.to_nat thrdCnt)
                        0 0 (Z.rem arraySize thrdCnt) indices.

Definition seg_start (p : param) : Z := p.1.2.
Definition seg_end (p : param) : Z := p.2.
Definition seg_size (p : param) : Z := seg_end p - seg_start p + 1.

(** What [gThreadProd] holds once every worker has stored its product. *)
Definition partial_products (gData : list Z) (rows : list param) : list Z :=
  (fun p => segment_product gData (seg_start p) (seg_end p)) <$> rows.

(** [rows] are non-empty segments laid end to end from [from] up to, and
    excluding, [upto]. *)
Fixpoint chained (from : Z) (rows : list param) (upto : Z) : Prop :=
  match rows with
  | [] => from = upto
  | p :: rows' =>
      seg_start p = from /\ seg_start p <= seg_end p /\
      chained (seg_end p + 1) rows' upto
  end.

(** The rows the loop of [CalculateIndices] writes, [n] of them from row
    [i], in exact arithmetic: the loop is shown to write these rows as long
    as no sum leaves the [int] range. *)
Fixpoint rows_from (divisionSize : Z) (n : nat) (i currentStart remainder : Z)
  : list param :=
  match n with
  | O => []
  | S n' =>
      let extra := if decide (remainder > 0) then 1 else 0 in
      (i, currentStart, currentStart + divisionSize + extra - 1)
        :: rows_from divisionSize n' (i + 1)
             (currentStart + divisionSize + extra) (remainder - extra)
  end.

(** ** Events of the program *)

Inductive mode := Sequential | JoinBarrier | BusyWait | CounterSignal.

Inductive routine := RThFindProd | RThFindProdWithSemaphore.

(** What the main thread does, as seen from outside.  A [Report] is one
    result line on the standard output; the elapsed time printed with it
    is not modelled. *)
Inductive event :=
| Stderr (msg : string)
| Created (i : Z) (r : routine) (p : param)
| Joined (i : Z)
| Report (m : mode) (prod : Z)
| Exit (code : Z).

(** ** Input generation and the program *)

Section Libc.

(** The C library: [rand_seq seed k] is the value of the [k]-th call of
    [rand()] after [srand(seed)] (counting from 0), and [atoi] is the
    decimal conversion of a command-line word. *)
Variable rand_seq : Z -> nat -> Z.
Variable atoi : string -> Z.

(** The hidden state of [rand]: the seed and the number of calls since
    [srand]. *)
Definition rand_state : Type := Z * nat.

Definition srand (seed : Z) : rand_state := (seed, O).

Definition rand (rs : rand_state) : Z * rand_state :=
  (rand_seq rs.1 rs.2, (rs.1, S rs.2)).

Definition GetRand (x y : Z) (rs : rand_state) : Z * rand_state :=
  let '(r, rs) := rand rs in
  (Int.add x (Z.rem r (Int.add (Int.sub y x) 1)), rs).

Fixpoint GenerateInput_loop (n : nat) (i : Z) (rs : rand_state)
    (gData : list Z) : list Z :=
  match n with
  | O => gData
  | S n' =>
      let '(v, rs) := GetRand 1 MAX_RANDOM_NUMBER rs in
      GenerateInput_loop n' (i + 1) rs (array_set gData i v)
  end.

(** The array after the filling loop, before the zero is forced. *)
Definition GenerateInput_fill (size : Z) (gData : list Z) : list Z :=
  GenerateInput_loop (Z.to_nat size) 0 (srand RANDOM_SEED) gData.

Definition GenerateInput (size indexForZero : Z) (gData : list Z) : list Z :=
  let gData := GenerateInput_fill size gData in
  if decide (indexForZero >= 0 /\ indexForZero < size)
  then array_set gData indexForZero 0
  else gData.

Definition param_get (a : list param) (i : Z) : param :=
  if decide (0 <= i) then default (0, 0, 0) (a !! Z.to_nat i) else (0, 0, 0).

(** The local arrays [indices] and [params] of [main] before they are
    written. *)
Definition fresh_rows : list param := replicate (Z.to_nat MAX_THREADS) (0, 0, 0).

(** The loop creating the threads.  The globals after the loop are those
    after every created thread has run; [ThFindProd] changes no global,
    so the schedule of the threads does not show in them. *)
Fixpoint main_create_loop (indices : list param) (n : nat) (i : Z)
    (params : list param) (st : Shared) : list event * list param * Shared :=
  match n with
  | O => ([], params, st)
  | S n' =>
      let row := param_get indices i in
      let p := (i, seg_start row, seg_end row) in
      let params := array_set params i p in
      let st := (ThFindProd p st).2 in
      let '(evs, params, st) := main_create_loop indices n' (i + 1) params st in
      (Created i RThFindProd p :: evs, params, st)
  end.

Fixpoint main_join_loop (n : nat) (i : Z) : list event :=
  match n with
  | O => []
  | S n' => Joined i :: main_join_loop n' (i + 1)
  end.

(** The round "parent waiting for all child threads" of [main]: the
    globals are initialised, one thread per row of [indices] is created
    and all are joined. *)
Definition join_barrier_round (indices : list param) (st : Shared)
  : list event * Shared :=
  let st := InitSharedVars st in
  let n := Z.to_nat (gThreadCount st) in
  let '(created, _, st) := main_create_loop indices n 0 fresh_rows st in
  (created ++ main_join_loop n 0, st).

(** The product [main] reports for that round. *)
Definition join_barrier_product (arraySize : Z) (st : Shared) : Z :=
  let indices := CalculateIndices arraySize (gThreadCount st) fresh_rows in
  ComputeTotalProduct (join_barrier_round indices st).2.

Definition nl : string := String (Ascii.ascii_of_nat 10) EmptyString.

Definition abort (msg : string) (st : Shared) : list event * Shared :=
  ([Stderr (msg +:+ nl); Exit (-1)], st).

Definition arg (argv : list string) (i : nat) : string :=
  default EmptyString (argv !! i).

(** [main], up to its [exit(0)]: the statements that follow it in the
    source are never reached. *)
Definition main (argv : list string) (st : Shared) : list event * Shared :=
  let argc := Z.of_nat (length argv) in
  if decide (argc <> 4) then abort "Invalid number of arguments!" st else
  let arraySize := atoi (arg argv 1) in
  if decide (arraySize <= 0 \/ arraySize > MAX_SIZE)
  then abort "Invalid Array Size" st else
  let st := set_gThreadCount (atoi (arg argv 2)) st in
  if decide (gThreadCount st > MAX_THREADS \/ gThreadCount st <= 0)
  then abort "Invalid Thread Count" st else
  let indexForZero := atoi (arg argv 3) in
  if decide (indexForZero < -1 \/ indexForZero >= arraySize)
  then abort "Invalid index for zero!" st else
  let st := set_gData (GenerateInput arraySize indexForZero (gData st)) st in
  let indices := CalculateIndices arraySize (gThreadCount st) fresh_rows in
  let prod := SqFindProd (gData st) arraySize in
  let '(round, st) := join_barrier_round indices st in
  let prod' := ComputeTotalProduct st in
  (Report Sequential prod :: round ++ [Report JoinBarrier prod'; Exit 0], st).

Definition reports (tr : list event) : list (mode * Z) :=
  omap (fun e => match e with Report m p => Some (m, p) | _ => None end) tr.

Definition is_created (e : event) : bool :=
  match e with Created _ _ _ => true | _ => false end.

(** A run that stops on a configuration error: one line on the standard
    error, exit status -1, nothing else. *)
Definition aborted (tr : list event) : Prop :=
  exists msg, tr = [Stderr msg; Exit (-1)].

(** A command line the checks of [main] let through. *)
Definition accepted (argv : list string) : Prop :=
  length argv = 4%nat /\
  0 < atoi (arg argv 1) <= MAX_SIZE /\
  0 < atoi (arg argv 2) <= MAX_THREADS /\
  -1 <= atoi (arg argv 3) < atoi (arg argv 1).

End Libc.

(** ** A C library to run the program with *)

Definition digit_of (c : Ascii.ascii) : option Z :=
  let n := Z.of_nat (Ascii.nat_of_ascii c) in
  if decide (48 <= n <= 57) then Some (n - 48) else None.

Fixpoint atoi_digits (s : string) (acc : Z) : Z :=
  match s with
  | EmptyString => acc
  | String c s' =>
      match digit_of c with
      | Some d => atoi_digits s' (10 * acc + d)
      | None => acc
      end
  end.

(** [atoi] on a word without leading blanks whose value fits an [int]. *)
Definition atoi_decimal (s : string) : Z :=
  match s with
  | EmptyString => 0
  | String c s' =>
      if Ascii.eqb c (Ascii.ascii_of_nat 45) then - atoi_digits s' 0
      else if Ascii.eqb c (Ascii.ascii_of_nat 43) then atoi_digits s' 0
      else atoi_digits s 0
  end.

(** A linear congruential [rand]. *)
Fixpoint lcg (x : Z) (k : nat) : Z :=
  match k with
  | O => x
  | S k' => lcg ((1103515245 * x + 12345) mod 2147483648) k'
  end.

Definition rand_lcg (seed : Z) (k : nat) : Z := lcg (seed mod 2147483648) (S k).

(** Globals at program start for an array of [cap] cells: static storage
    is zero-initialised. *)
Definition start_state (cap : nat) : Shared :=
  mkShared (replicate cap 0) 0 0
           (replicate (Z.to_nat MAX_THREADS) 0)
           (replicate (Z.to_nat MAX_THREADS) false) 0 0.

(** ** Segments that may be empty

    [rows] are segments laid end to end from [from] up to, and excluding,
    [upto]; a segment with [end = start - 1] holds no cell. *)
Fixpoint laid_out (from : Z) (rows : list param) (upto : Z) : Prop :=
  match rows with
  | [] => from = upto
  | p :: rows' =>
      seg_start p = from /\ seg_start p <= seg_end p + 1 /\
      laid_out (seg_end p + 1) rows' upto
  end.

(** The globals of a round under way: [gData] and [gThreadCount] are
    those of the start [st0], and a thread past its first step has its
    product in its cell of [gThreadProd]. *)
Definition published_inv (params : list param) (st0 : Shared) (s : system)
  : Prop :=
  gData s.1 = gData st0 /\ gThreadCount s.1 = gThreadCount st0 /\
  length (gThreadProd s.1) = length (gThreadProd st0) /\
  length s.2 = length params /\
  forall (i : nat) p l,
    params !! i = Some p -> s.2 !! i = Some l -> l <> AtStart ->
    array_get (gThreadProd s.1) p.1.1
    = segment_product (gData st0) p.1.2 p.2.

(** Thread [i] owns cell [i] of [gThreadProd]. *)
Definition own_slots (params : list param) : Prop :=
  forall (i : nat) p, params !! i = Some p -> p.1.1 = Z.of_nat i.

(** How many of the partial products are 0. *)
Definition zero_count (partials : list Z) : nat :=
  length (filter (fun x => x = 0) partials).

(** Every thread of a round has finished. *)
Definition all_finished (pcs : list pc) : Prop :=
  Forall (fun l => l = Finished) pcs.

(** ** Timing

    The C [long] of the LP64 data model: 64 bits, two's complement. *)

Module Long.

Definition min_long : Z := - 9223372036854775808.
Definition max_long : Z := 9223372036854775807.

Definition wrap (z : Z) : Z :=
  (z + 9223372036854775808) mod 18446744073709551616 - 9223372036854775808.

Definition add (a b : Z) : Z := wrap (a + b).
Definition sub (a b : Z) : Z := wrap (a - b).
Definition mul (a b : Z) : Z := wrap (a * b).

End Long.

(** The fields of [struct timeb] the program reads: seconds since the
    Epoch and the milliseconds within the second. *)
Record timeb := mkTimeb { tb_time : Z; tb_millitm : Z }.

Definition GetMilliSecondTime (timeBuf : timeb) : Z :=
  let mliScndTime := tb_time timeBuf in
  let mliScndTime := Long.mul mliScndTime 1000 in
  let mliScndTime := Long.add mliScndTime (tb_millitm timeBuf) in
  mliScndTime.

(** [now] is what [ftime] writes into [timeBuf]. *)
Definition GetCurrentTime (now : timeb) : Z := GetMilliSecondTime now.

(** The value [SetTime] gives to the global [gRefTime]. *)
Definition SetTime (now : timeb) : Z := GetCurrentTime now.

Definition GetTime (gRefTime : Z) (now : timeb) : Z :=
  let crntTime := GetCurrentTime now in
  Long.sub crntTime gRefTime.

(** A clock reading after the Epoch whose millisecond count fits a
    [long]. *)
Definition valid_reading (t : timeb) : Prop :=
  0 <= tb_time t <= 9223372036854774 /\ 0 <= tb_millitm t < 1000.

(** [t0] is not later than [t1]. *)
Definition reading_le (t0 t1 : timeb) : Prop :=
  tb_time t0 < tb_time t1 \/
  (tb_time t0 = tb_time t1 /\ tb_millitm t0 <= tb_millitm t1).

Example atoi_decimal_examples :
  atoi_decimal "10" = 10 /\ atoi_decimal "-1" = -1 /\ atoi_decimal "0" = 0.
Proof. repeat split. Qed.

Example SqFindProd_scenario1 :
  SqFindProd [7; 3; 5; 2; 9; 4; 6; 8; 1; 5] 10 = 9287.
Proof. vm_compute. reflexivity. Qed.

(** * Properties *)

(** ** The [int] operations inside their range *)

Section IntFacts.

Lemma wrap_small z : Int.in_range z -> Int.wrap z = z.
Proof.
  unfold Int.in_range, Int.wrap, Int.min_int, Int.max_int. intros Hz.
  rewrite Z.mod_small; lia.
Qed.

Lemma add_small a b : Int.in_range (a + b) -> Int.add a b = a + b.
Proof. apply wrap_small. Qed.

Lemma sub_small a b : Int.in_range (a - b) -> Int.sub a b = a - b.
Proof. apply wrap_small. Qed.

Lemma mul_small a b : Int.in_range (a * b) -> Int.mul a b = a * b.
Proof. apply wrap_small. Qed.

End IntFacts.

(** ** Array cells *)

Section Cells.

Implicit Types (a l : list Z) (i k : Z) (n : nat).

Lemma cells_S a i n :
  cells a i (S n) = array_get a i :: cells a (i + 1) n.
Proof.
  unfold cells. rewrite seqZ_cons by lia. simpl.
  do 3 f_equal; lia.
Qed.

Lemma cells_app a i n m :
  cells a i (n + m) = cells a i n ++ cells a (i + Z.of_nat n) m.
Proof.
  unfold cells. rewrite Nat2Z.inj_add, seqZ_app by lia.
  apply fmap_app.
Qed.

Lemma array_get_lookup a (j : nat) x :
  a !! j = Some x -> array_get a (Z.of_nat j) = x.
Proof.
  intros Hj. unfold array_get. rewrite decide_True by lia.
  rewrite Nat2Z.id, Hj. reflexivity.
Qed.

Lemma cells_take_drop a (j n : nat) :
  (j + n <= length a)%nat ->
  cells a (Z.of_nat j) n = take n (drop j a).
Proof.
  revert j. induction n as [|n IH]; intros j Hlen.
  - reflexivity.
  - rewrite cells_S.
    destruct (lookup_lt_is_Some_2 a j) as [x Hx]; [lia|].
    rewrite (drop_S _ _ _ Hx). simpl.
    rewrite (array_get_lookup _ _ _ Hx). f_equal.
    replace (Z.of_nat j + 1) with (Z.of_nat (S j)) by lia.
    apply IH. lia.
Qed.

Lemma cells_take a size :
  0 <= size <= Z.of_nat (length a) ->
  cells a 0 (Z.to_nat size) = take (Z.to_nat size) a.
Proof.
  intros Hs. apply (cells_take_drop a 0%nat). lia.
Qed.

Lemma list_product_cons x l : list_product (x :: l) = x * list_product l.
Proof. reflexivity. Qed.

Lemma list_product_app l1 l2 :
  list_product (l1 ++ l2) = list_product l1 * list_product l2.
Proof.
  induction l1 as [|x l1 IH].
  - change (list_product []) with 1. rewrite Z.mul_1_l. reflexivity.
  - rewrite <- app_comm_cons, !list_product_cons, IH. ring.
Qed.

Lemma list_product_nonneg l :
  Forall (fun x => 0 <= x) l -> 0 <= list_product l.
Proof.
  induction 1 as [|x l Hx _ IH]; [unfold list_product; simpl; lia|].
  rewrite list_product_cons. lia.
Qed.

End Cells.

(** ** One step of the running product *)

Section ModStep.

Lemma reduced_rem a : reduced (Z.rem a NUM_LIMIT).
Proof.
  unfold reduced. pose proof (Z.rem_bound_abs a NUM_LIMIT).
  unfold NUM_LIMIT in *. lia.
Qed.

Lemma reduced_1 : reduced 1.
Proof. unfold reduced, NUM_LIMIT. lia. Qed.

Lemma rem_reduced p : reduced p -> Z.rem p NUM_LIMIT = p.
Proof.
  unfold reduced. intros Hp.
  apply Z.rem_small_iff; unfold NUM_LIMIT in *; lia.
Qed.

Lemma safe_mul_in_range p x :
  reduced p -> safe_factor x -> Int.in_range (p * x).
Proof.
  unfold reduced, safe_factor, Int.in_range, Int.min_int, Int.max_int, NUM_LIMIT.
  intros Hp Hx.
  assert (Z.abs (p * x) <= 9972 * Z.abs x) as Habs.
  { rewrite Z.abs_mul. apply Z.mul_le_mono_nonneg_r; lia. }
  lia.
Qed.

Lemma mod_step_safe p x :
  reduced p -> safe_factor x -> mod_step p x = Z.rem (p * x) NUM_LIMIT.
Proof.
  intros Hp Hx. unfold mod_step.
  rewrite mul_small by (apply safe_mul_in_range; assumption).
  reflexivity.
Qed.

Lemma mod_step_reduced p x : reduced (mod_step p x).
Proof. apply reduced_rem. Qed.

(** Folding a safe factor into a reduced product keeps the value of the
    whole product modulo [NUM_LIMIT]. *)
Lemma mod_step_absorb p x rest :
  reduced p -> safe_factor x ->
  Z.rem (mod_step p x * rest) NUM_LIMIT = Z.rem (p * (x * rest)) NUM_LIMIT.
Proof.
  intros Hp Hx. rewrite mod_step_safe by assumption.
  rewrite Z.mul_rem_idemp_l by (unfold NUM_LIMIT; lia).
  f_equal. ring.
Qed.

End ModStep.

(** ** The scanning loops *)

Section Scan.

Implicit Types (g : list Z) (i p : Z) (n : nat).

(** [SqFindProd] and the worker run the same loop. *)
Lemma SqFindProd_loop_result g n i p :
  (SqFindProd_loop g n i p).2 = segment_scan g n i p.
Proof.
  revert i p. induction n as [|n IH]; intros i p; simpl.
  - reflexivity.
  - destruct (decide (array_get g i = 0)); [reflexivity|].
    specialize (IH (i + 1) (mod_step p (array_get g i))).
    destruct (SqFindProd_loop g n (i + 1) (mod_step p (array_get g i))).
    exact IH.
Qed.

(** The loop of the worker reads and computes as the loop of
    [SqFindProd] does. *)
Lemma ThFindProdWithSemaphore_loop_eq g n i p :
  ThFindProdWithSemaphore_loop g n i p = SqFindProd_loop g n i p.
Proof.
  revert i p. induction n as [|n IH]; intros i p; simpl.
  - reflexivity.
  - destruct (decide (array_get g i = 0)); [reflexivity|].
    rewrite IH. reflexivity.
Qed.

Lemma segment_product_scan g start end_ :
  segment_product g start end_ = segment_scan g (span start end_) start 1.
Proof.
  unfold segment_product, segment_run.
  rewrite ThFindProdWithSemaphore_loop_eq. apply SqFindProd_loop_result.
Qed.

Lemma segment_scan_product g n i p :
  reduced p -> Forall safe_factor (cells g i n) ->
  segment_scan g n i p = Z.rem (p * list_product (cells g i n)) NUM_LIMIT.
Proof.
  revert i p. induction n as [|n IH]; intros i p Hp Hsafe.
  - simpl. change (list_product (cells g i 0)) with 1.
    rewrite Z.mul_1_r, rem_reduced; auto.
  - rewrite cells_S in Hsafe |- *. apply Forall_cons in Hsafe as [Hx Hrest].
    rewrite list_product_cons. simpl.
    destruct (decide (array_get g i = 0)) as [Hz|Hnz].
    + rewrite Hz, Z.mul_0_l, Z.mul_0_r. reflexivity.
    + rewrite IH by auto using mod_step_reduced.
      apply mod_step_absorb; assumption.
Qed.


(** Without a zero the loop of [SqFindProd] reads every cell, in order. *)
Lemma SqFindProd_loop_reads_all g n i p :
  0 ∉ cells g i n -> (SqFindProd_loop g n i p).1 = seqZ i (Z.of_nat n).
Proof.
  revert i p. induction n as [|n IH]; intros i p Hnz.
  - reflexivity.
  - rewrite cells_S in Hnz. apply not_elem_of_cons in Hnz as [Hx Hrest].
    simpl. rewrite decide_False by congruence.
    specialize (IH (i + 1) (mod_step p (array_get g i)) Hrest).
    destruct (SqFindProd_loop g n (i + 1) (mod_step p (array_get g i))) as [rd r].
    simpl in *. rewrite IH, (seqZ_cons i) by lia.
    do 2 f_equal; lia.
Qed.

(** With a first zero [k] cells further, it reads up to that cell and no
    further, and leaves with 0. *)
Lemma SqFindProd_loop_reads_zero g n i p (k : nat) :
  (k < n)%nat -> array_get g (i + Z.of_nat k) = 0 ->
  (forall j : nat, (j < k)%nat -> array_get g (i + Z.of_nat j) <> 0) ->
  SqFindProd_loop g n i p = (seqZ i (Z.of_nat (S k)), 0).
Proof.
  revert n i p. induction k as [|k IH]; intros n i p Hk Hz Hbefore.
  - destruct n as [|n]; [lia|]. simpl.
    replace (i + Z.of_nat 0) with i in Hz by lia.
    rewrite decide_True by assumption. reflexivity.
  - destruct n as [|n]; [lia|]. simpl.
    rewrite decide_False.
    2:{ specialize (Hbefore 0%nat). replace (i + Z.of_nat 0) with i in Hbefore by lia.
        apply Hbefore. lia. }
    rewrite (IH n (i + 1)).
    + rewrite (seqZ_cons i) by lia. do 3 f_equal; lia.
    + lia.
    + rewrite <- Hz. f_equal. lia.
    + intros j Hj. specialize (Hbefore (S j)).
      replace (i + 1 + Z.of_nat j) with (i + Z.of_nat (S j)) by lia.
      apply Hbefore. lia.
Qed.

(** The aggregator's loop is the same fold without the test for zero. *)
Lemma ComputeTotalProduct_loop_product g n i p :
  reduced p -> Forall safe_factor (cells g i n) ->
  ComputeTotalProduct_loop g n i p
  = Z.rem (p * list_product (cells g i n)) NUM_LIMIT.
Proof.
  revert i p. induction n as [|n IH]; intros i p Hp Hsafe.
  - simpl. change (list_product (cells g i 0)) with 1.
    rewrite Z.mul_1_r, rem_reduced; auto.
  - rewrite cells_S in Hsafe |- *. apply Forall_cons in Hsafe as [Hx Hrest].
    rewrite list_product_cons. simpl.
    rewrite IH by auto using mod_step_reduced.
    apply mod_step_absorb; assumption.
Qed.

End Scan.

(** ** The sequential reducer *)

Section Sequential.

Lemma safe_factor_bound x : 0 <= x -> safe_factor x <-> x <= 215351.
Proof. unfold safe_factor, NUM_LIMIT, Int.max_int. lia. Qed.

Lemma SqFindProd_cells gData size :
  0 <= size <= Z.of_nat (length gData) ->
  Forall safe_factor (take (Z.to_nat size) gData) ->
  SqFindProd gData size
  = Z.rem (list_product (take (Z.to_nat size) gData)) NUM_LIMIT.
Proof.
  intros Hsize Hsafe. unfold SqFindProd, SqFindProd_run.
  rewrite SqFindProd_loop_result.
  rewrite <- cells_take in Hsafe |- * by assumption.
  rewrite segment_scan_product by auto using reduced_1.
  rewrite Z.mul_1_l. reflexivity.
Qed.

(** C6, amended: on the first [size] cells of an array at least that
    long, [SqFindProd] scans from the left; when every element is
    non-negative and small enough for [product * element] to fit an
    [int] (at most 215351), it returns the product of the elements
    modulo [NUM_LIMIT]; without a zero it reads every cell in order; with
    a first zero at [k] it returns 0 and has read the cells 0 to [k] and
    none after. *)
Theorem SqFindProd_contract (gData : list Z) (size : Z) :
  0 <= size <= Z.of_nat (length gData) ->
  let elems := take (Z.to_nat size) gData in
  (Forall (fun x => 0 <= x /\ safe_factor x) elems ->
     SqFindProd gData size = list_product elems mod NUM_LIMIT) /\
  (0 ∉ elems -> SqFindProd_reads gData size = seqZ 0 size) /\
  (forall k, 0 <= k < size -> array_get gData k = 0 ->
     (forall j, 0 <= j < k -> array_get gData j <> 0) ->
     SqFindProd gData size = 0 /\
     SqFindProd_reads gData size = seqZ 0 (k + 1)).
Proof.
  intros Hsize elems. split; [|split].
  - intros Hall.
    rewrite SqFindProd_cells; [|assumption|].
    + apply Z.rem_mod_nonneg; [|reflexivity].
      apply list_product_nonneg.
      eapply Forall_impl; [exact Hall|]. intros x [Hx _]. exact Hx.
    + eapply Forall_impl; [exact Hall|]. intros x [_ Hx]. exact Hx.
  - intros Hnz. unfold SqFindProd_reads, SqFindProd_run.
    rewrite SqFindProd_loop_reads_all.
    + f_equal. lia.
    + rewrite cells_take by assumption. exact Hnz.
  - intros k Hk Hz Hbefore.
    assert (SqFindProd_run gData size = (seqZ 0 (k + 1), 0)) as Hrun.
    { unfold SqFindProd_run.
      rewrite (SqFindProd_loop_reads_zero gData _ 0 1 (Z.to_nat k)).
      - do 2 f_equal. lia.
      - lia.
      - rewrite Z.add_0_l, Z2Nat.id by lia. exact Hz.
      - intros j Hj. rewrite Z.add_0_l. apply Hbefore. lia. }
    unfold SqFindProd, SqFindProd_reads. rewrite Hrun. split; reflexivity.
Qed.

Lemma SqFindProd_contract_witness :
  let gData := [7; 3; 5; 0; 9] in
  0 <= 5 <= Z.of_nat (length gData) /\
  SqFindProd gData 5 = list_product gData mod NUM_LIMIT /\
  SqFindProd gData 5 = 0 /\
  SqFindProd_reads gData 5 = [0; 1; 2; 3].
Proof.
  intros gData.
  assert (0 <= 5 <= Z.of_nat (length gData)) as Hsize by (simpl; lia).
  destruct (SqFindProd_contract gData 5 Hsize) as (Hprod & _ & Hzero).
  split; [exact Hsize|]. split.
  - apply Hprod. unfold safe_factor, NUM_LIMIT, Int.max_int.
    repeat constructor; simpl; lia.
  - apply (Hzero 3); [lia | reflexivity |].
    intros j Hj. assert (j = 0 \/ j = 1 \/ j = 2) as [->|[->| ->]] by lia;
      vm_compute; discriminate.
Defined.

(** C6 as stated fails: with a non-negative element too large for the
    multiplication to fit an [int], the result is not the product modulo
    [NUM_LIMIT] (here it is negative). *)
Lemma SqFindProd_overflow :
  let gData := [2; 2147483647] in
  Forall (fun x => 0 <= x) gData /\
  SqFindProd gData 2 = -2 /\
  list_product gData mod NUM_LIMIT = 5087 /\
  SqFindProd gData 2 <> list_product gData mod NUM_LIMIT.
Proof.
  intros gData. split; [repeat constructor; lia|].
  split; [vm_compute; reflexivity|].
  split; [vm_compute; reflexivity|].
  vm_compute. discriminate.
Qed.

(** C9: when every factor is in the safe range of the multiplication,
    reducing modulo [NUM_LIMIT] after every multiplication, as the loop
    of [SqFindProd] does, gives the value of reducing the product of all
    the factors once at the end. *)
Theorem reduce_each_step_eq_reduce_once (factors : list Z) :
  Forall safe_factor factors ->
  SqFindProd factors (Z.of_nat (length factors))
  = Z.rem (list_product factors) NUM_LIMIT.
Proof.
  intros Hsafe.
  rewrite SqFindProd_cells.
  - rewrite Nat2Z.id, firstn_all. reflexivity.
  - lia.
  - rewrite Nat2Z.id, firstn_all. exact Hsafe.
Qed.

Lemma reduce_each_step_eq_reduce_once_witness :
  let factors := [7; 3; 5; 2; 9; 4; 6; 8; 1; 5] in
  Forall safe_factor factors /\
  SqFindProd factors 10 = Z.rem (list_product factors) NUM_LIMIT.
Proof.
  intros factors.
  assert (Forall safe_factor factors) as Hsafe.
  { unfold safe_factor, NUM_LIMIT, Int.max_int. repeat constructor; simpl; lia. }
  split; [exact Hsafe|].
  exact (reduce_each_step_eq_reduce_once factors Hsafe).
Defined.

End Sequential.

(** ** The partitioner *)

Section Partition.

Implicit Types (q cs rem : Z) (n : nat) (rows : list param).

Lemma array_set_middle {A} (pre post : list A) (old v : A) :
  array_set (pre ++ old :: post) (Z.of_nat (length pre)) v = pre ++ v :: post.
Proof.
  unfold array_set. rewrite decide_True by lia.
  rewrite Nat2Z.id.
  replace (length pre) with (length pre + 0)%nat at 1 by lia.
  rewrite insert_app_r. reflexivity.
Qed.

(** The loop writes [rows_from], and nothing before or after them. *)
Lemma CalculateIndices_loop_rows q n (pre old post : list param) cs rem :
  length old = n -> 0 <= cs -> 0 <= q -> 0 <= rem ->
  cs + Z.of_nat n * q + rem <= Int.max_int ->
  CalculateIndices_loop q n (Z.of_nat (length pre)) cs rem (pre ++ old ++ post)
  = pre ++ rows_from q n (Z.of_nat (length pre)) cs rem ++ post.
Proof.
  revert pre old cs rem.
  induction n as [|n IH]; intros pre old cs rem Hlen Hcs Hq Hrem Hmax.
  - destruct old; [reflexivity|discriminate].
  - destruct old as [|o old]; [discriminate|]. injection Hlen as Hlen.
    cbn [CalculateIndices_loop rows_from].
    set (extra := if decide (rem > 0) then 1 else 0).
    assert (0 <= extra <= 1 /\ extra <= rem) as Hextra.
    { unfold extra. destruct (decide (rem > 0)); lia. }
    unfold Int.max_int in Hmax.
    assert (Int.sub (Int.add (Int.add cs q) extra) 1 = cs + q + extra - 1) as ->.
    { rewrite (add_small cs q) by (unfold Int.in_range, Int.min_int, Int.max_int; nia).
      rewrite add_small by (unfold Int.in_range, Int.min_int, Int.max_int; nia).
      apply sub_small. unfold Int.in_range, Int.min_int, Int.max_int; nia. }
    rewrite add_small by (unfold Int.in_range, Int.min_int, Int.max_int; nia).
    rewrite sub_small by (unfold Int.in_range, Int.min_int, Int.max_int; nia).
    replace (cs + q + extra - 1 + 1) with (cs + q + extra) by lia.
    change ((o :: old) ++ post) with (o :: old ++ post).
    rewrite array_set_middle.
    set (row := (Z.of_nat (length pre), cs, cs + q + extra - 1)).
    pose proof (IH (pre ++ [row]) old (cs + q + extra) (rem - extra)) as IH'.
    rewrite length_app, Nat2Z.inj_add in IH'.
    rewrite <- !app_assoc in IH'. cbn [app length] in IH'.
    change (Z.of_nat 1) with 1 in IH'.
    apply IH'; [assumption | lia | lia | lia | unfold Int.max_int; nia].
Qed.

Lemma length_rows_from q n i cs rem : length (rows_from q n i cs rem) = n.
Proof.
  revert i cs rem. induction n as [|n IH]; intros; simpl; [reflexivity|].
  rewrite IH. reflexivity.
Qed.

Lemma some_row_eq (a b c a' b' c' : Z) :
  a = a' -> b = b' -> c = c' -> Some (a, b, c) = Some (a', b', c').
Proof. intros -> -> ->. reflexivity. Qed.

(** Row [k] in closed form. *)
Lemma rows_from_lookup q n i cs rem (k : nat) :
  0 <= rem -> (k < n)%nat ->
  rows_from q n i cs rem !! k
  = Some (i + Z.of_nat k,
          cs + Z.of_nat k * q + Z.min (Z.of_nat k) rem,
          cs + Z.of_nat k * q + Z.min (Z.of_nat k) rem
            + q + (if decide (Z.of_nat k < rem) then 1 else 0) - 1).
Proof.
  revert n i cs rem. induction k as [|k IH]; intros n i cs rem Hrem Hk.
  - destruct n as [|n]; [lia|]. simpl. change (Z.of_nat 0) with 0.
    destruct (decide (rem > 0)), (decide (0 < rem)); try lia;
      apply some_row_eq; lia.
  - destruct n as [|n]; [lia|]. cbn [rows_from lookup list_lookup].
    set (extra := if decide (rem > 0) then 1 else 0).
    assert (extra = 1 /\ 0 < rem \/ extra = 0 /\ rem = 0) as Hextra.
    { unfold extra. destruct (decide (rem > 0)); lia. }
    change ((?x :: ?l) !! S k) with (l !! k).
    rewrite IH by lia.
    destruct (decide (Z.of_nat k < rem - extra)),
             (decide (Z.of_nat (S k) < rem)); try lia;
      apply some_row_eq; lia.
Qed.

Lemma rows_from_chained q n i cs rem :
  1 <= q -> 0 <= rem ->
  chained cs (rows_from q n i cs rem)
          (cs + Z.of_nat n * q + Z.min (Z.of_nat n) rem).
Proof.
  revert i cs rem. induction n as [|n IH]; intros i cs rem Hq Hrem.
  - simpl. lia.
  - cbn [rows_from chained].
    set (extra := if decide (rem > 0) then 1 else 0).
    assert (extra = 1 /\ 0 < rem \/ extra = 0 /\ rem = 0) as Hextra.
    { unfold extra. destruct (decide (rem > 0)); lia. }
    unfold seg_start, seg_end. cbn [fst snd].
    split; [reflexivity|]. split; [lia|].
    replace (cs + q + extra - 1 + 1) with (cs + q + extra) by lia.
    replace (cs + Z.of_nat (S n) * q + Z.min (Z.of_nat (S n)) rem)
      with (cs + q + extra + Z.of_nat n * q + Z.min (Z.of_nat n) (rem - extra))
      by lia.
    apply IH; lia.
Qed.

(** Segments laid end to end are increasing and stay inside the range. *)
Lemma chained_lookup from rows upto (i : nat) p :
  chained from rows upto -> rows !! i = Some p ->
  from <= seg_start p /\ seg_start p <= seg_end p /\ seg_end p < upto /\
  chained (seg_end p + 1) (drop (S i) rows) upto.
Proof.
  revert from i. induction rows as [|p0 rows IH]; intros from i Hch Hi.
  - discriminate.
  - destruct Hch as (Hs & Hne & Hch).
    assert (forall a l b, chained a l b -> a <= b) as Hle.
    { clear. intros a l. revert a. induction l as [|x l IHl]; simpl; intros a b H.
      - lia.
      - destruct H as (? & ? & H). apply IHl in H. lia. }
    destruct i as [|i].
    + injection Hi as <-. pose proof (Hle _ _ _ Hch).
      repeat split; try lia. exact Hch.
    + destruct (IH _ _ Hch Hi) as (? & ? & ? & ?).
      repeat split; try lia. assumption.
Qed.

Lemma chained_disjoint from rows upto (i j : nat) p p' k :
  chained from rows upto ->
  rows !! i = Some p -> rows !! j = Some p' ->
  seg_start p <= k <= seg_end p -> seg_start p' <= k <= seg_end p' ->
  i = j.
Proof.
  intros Hch Hi Hj Hk Hk'.
  assert (forall (a b : nat) pa pb,
             rows !! a = Some pa -> rows !! b = Some pb -> (a < b)%nat ->
             seg_end pa < seg_start pb) as Hlt.
  { intros a b pa pb Ha Hb Hab.
    destruct (chained_lookup _ _ _ _ _ Hch Ha) as (_ & _ & _ & Hrest).
    assert (drop (S a) rows !! (b - S a)%nat = Some pb) as Hb'.
    { rewrite lookup_drop. rewrite <- Hb. f_equal. lia. }
    destruct (chained_lookup _ _ _ _ _ Hrest Hb') as (? & _). lia. }
  destruct (Nat.lt_trichotomy i j) as [Hij|[Hij|Hij]]; [|assumption|].
  - specialize (Hlt _ _ _ _ Hi Hj Hij). lia.
  - specialize (Hlt _ _ _ _ Hj Hi Hij). lia.
Qed.

Lemma chained_cover from rows upto k :
  chained from rows upto -> from <= k < upto ->
  exists (i : nat) p, rows !! i = Some p /\ seg_start p <= k <= seg_end p.
Proof.
  revert from. induction rows as [|p0 rows IH]; intros from Hch Hk.
  - simpl in Hch. lia.
  - destruct Hch as (Hs & Hne & Hch).
    destruct (decide (k <= seg_end p0)) as [Hin|Hout].
    + exists 0%nat, p0. split; [reflexivity|lia].
    + destruct (IH _ Hch) as (i & p & Hi & Hp); [lia|].
      exists (S i), p. split; assumption.
Qed.

Lemma CalculateIndices_rows arraySize thrdCnt (indices : list param) :
  1 <= thrdCnt <= arraySize -> arraySize <= Int.max_int ->
  thrdCnt <= Z.of_nat (length indices) ->
  CalculateIndices arraySize thrdCnt indices
  = rows_from (arraySize / thrdCnt) (Z.to_nat thrdCnt) 0 0
              (arraySize mod thrdCnt)
      ++ drop (Z.to_nat thrdCnt) indices.
Proof.
  intros HT HN Hlen. unfold CalculateIndices.
  rewrite Z.quot_div_nonneg, Z.rem_mod_nonneg by lia.
  pose proof (Z.div_mod arraySize thrdCnt ltac:(lia)) as Hdm.
  pose proof (Z.mod_pos_bound arraySize thrdCnt ltac:(lia)) as Hr.
  assert (0 <= arraySize / thrdCnt) as Hq by (apply Z.div_pos; lia).
  rewrite <- (take_drop (Z.to_nat thrdCnt) indices) at 1.
  apply (CalculateIndices_loop_rows _ _ []); try lia.
  rewrite length_take. lia.
Qed.

(** C5: for [1 <= thrdCnt <= arraySize], the first [thrdCnt] rows that
    [CalculateIndices] writes are segments laid end to end from 0 to
    [arraySize - 1], each non-empty; row [i] carries the number [i] and
    has [arraySize / thrdCnt] cells, one more when
    [i < arraySize mod thrdCnt]; two sizes differ by at most 1; every
    index of the array is in one segment and one only. *)
Theorem CalculateIndices_partition (arraySize thrdCnt : Z)
    (indices : list param) :
  1 <= thrdCnt <= arraySize -> arraySize <= Int.max_int ->
  thrdCnt <= Z.of_nat (length indices) ->
  let rows := take (Z.to_nat thrdCnt)
                   (CalculateIndices arraySize thrdCnt indices) in
  let q := arraySize / thrdCnt in
  let r := arraySize mod thrdCnt in
  length rows = Z.to_nat thrdCnt /\
  chained 0 rows arraySize /\
  (forall i : nat, Z.of_nat i < thrdCnt ->
     exists p, rows !! i = Some p /\ p.1.1 = Z.of_nat i /\
               seg_size p = q + (if decide (Z.of_nat i < r) then 1 else 0)) /\
  (forall p p', p ∈ rows -> p' ∈ rows ->
     Z.abs (seg_size p - seg_size p') <= 1) /\
  (forall k, 0 <= k < arraySize ->
     exists (i : nat) p,
       rows !! i = Some p /\ seg_start p <= k <= seg_end p /\
       forall (j : nat) p',
         rows !! j = Some p' -> seg_start p' <= k <= seg_end p' -> j = i).
Proof.
  intros HT HN Hlen rows q r.
  pose proof (Z.div_mod arraySize thrdCnt ltac:(lia)) as Hdm.
  pose proof (Z.mod_pos_bound arraySize thrdCnt ltac:(lia)) as Hr.
  assert (1 <= q) as Hq.
  { unfold q. apply Z.div_le_lower_bound; lia. }
  assert (rows = rows_from q (Z.to_nat thrdCnt) 0 0 r) as Hrows.
  { unfold rows. rewrite CalculateIndices_rows by assumption.
    rewrite take_app_length'; [reflexivity|symmetry; apply length_rows_from]. }
  assert (chained 0 rows arraySize) as Hch.
  { fold q r in Hdm, Hr.
    pose proof (rows_from_chained q (Z.to_nat thrdCnt) 0 0 r Hq (proj1 Hr))
      as Hc.
    replace (0 + Z.of_nat (Z.to_nat thrdCnt) * q
             + Z.min (Z.of_nat (Z.to_nat thrdCnt)) r)
      with arraySize in Hc by (rewrite Z2Nat.id by lia; lia).
    rewrite Hrows. exact Hc. }
  assert (forall i : nat, Z.of_nat i < thrdCnt ->
            exists p, rows !! i = Some p /\ p.1.1 = Z.of_nat i /\
              seg_size p = q + (if decide (Z.of_nat i < r) then 1 else 0))
    as Hsize.
  { intros i Hi. eexists. split; [|split].
    - rewrite Hrows. apply rows_from_lookup; fold r in Hr; lia.
    - cbn [fst]. lia.
    - unfold seg_size, seg_start, seg_end. cbn [fst snd]. lia. }
  split; [|split; [|split; [|split]]].
  - rewrite Hrows. apply length_rows_from.
  - exact Hch.
  - exact Hsize.
  - intros p p' Hp Hp'.
    apply list_elem_of_lookup in Hp as [i Hi], Hp' as [j Hj].
    assert (length rows = Z.to_nat thrdCnt) as Hlr
      by (rewrite Hrows; apply length_rows_from).
    pose proof (lookup_lt_Some _ _ _ Hi). pose proof (lookup_lt_Some _ _ _ Hj).
    destruct (Hsize i) as (pi & Hpi & _ & Hsi); [lia|].
    destruct (Hsize j) as (pj & Hpj & _ & Hsj); [lia|].
    assert (Some pi = Some p) as [= ->] by (rewrite <- Hi; exact (eq_sym Hpi)).
    assert (Some pj = Some p') as [= ->] by (rewrite <- Hj; exact (eq_sym Hpj)).
    rewrite Hsi, Hsj.
    destruct (decide (Z.of_nat i < r)), (decide (Z.of_nat j < r)); lia.
  - intros k Hk.
    destruct (chained_cover _ _ _ k Hch Hk) as (i & p & Hi & Hp).
    exists i, p. split; [exact Hi|]. split; [exact Hp|].
    intros j p' Hj Hp'. exact (chained_disjoint _ _ _ _ _ _ _ _ Hch Hj Hi Hp' Hp).
Qed.

Lemma CalculateIndices_partition_witness :
  let rows := take 3 (CalculateIndices 10 3 fresh_rows) in
  rows = [(0, 0, 3); (1, 4, 6); (2, 7, 9)] /\
  length rows = 3%nat /\
  chained 0 rows 10 /\
  (forall p p', p ∈ rows -> p' ∈ rows ->
     Z.abs (seg_size p - seg_size p') <= 1).
Proof.
  intros rows. split; [reflexivity|].
  assert (1 <= 3 <= 10) as HT by lia.
  assert (10 <= Int.max_int) as HN by (unfold Int.max_int; lia).
  assert (3 <= Z.of_nat (length fresh_rows)) as Hlen by (simpl; lia).
  destruct (CalculateIndices_partition 10 3 fresh_rows HT HN Hlen)
    as (Hl & Hch & _ & Hsz & _).
  split; [exact Hl|]. split; [exact Hch|exact Hsz].
Defined.

End Partition.

(** ** Stores into arrays *)

Section ArraySet.

Context {A : Type}.
Implicit Types (a : list A) (i j : Z).

Lemma length_array_set a i (v : A) : length (array_set a i v) = length a.
Proof.
  unfold array_set. destruct (decide (0 <= i)); [apply length_insert|reflexivity].
Qed.

Lemma lookup_array_set_eq a i (v : A) :
  0 <= i < Z.of_nat (length a) -> array_set a i v !! Z.to_nat i = Some v.
Proof.
  intros Hi. unfold array_set. rewrite decide_True by lia.
  apply list_lookup_insert_eq. lia.
Qed.

Lemma lookup_array_set_ne a i (v : A) (j : nat) :
  i <> Z.of_nat j -> array_set a i v !! j = a !! j.
Proof.
  intros Hij. unfold array_set. destruct (decide (0 <= i)); [|reflexivity].
  apply list_lookup_insert_ne. lia.
Qed.

End ArraySet.

Section ArrayGetSet.

Implicit Types (a : list Z) (i j v : Z).

Lemma array_get_set_eq a i v :
  0 <= i < Z.of_nat (length a) -> array_get (array_set a i v) i = v.
Proof.
  intros Hi. unfold array_get. rewrite decide_True by lia.
  rewrite lookup_array_set_eq by assumption. reflexivity.
Qed.

Lemma array_get_set_ne a i j v :
  i <> j -> array_get (array_set a i v) j = array_get a j.
Proof.
  intros Hij. unfold array_get. destruct (decide (0 <= j)); [|reflexivity].
  rewrite lookup_array_set_ne by lia. reflexivity.
Qed.

End ArrayGetSet.

(** ** The round with [ThFindProd] *)

Section JoinBarrier.

Lemma ThFindProd_loop_id n st : ThFindProd_loop n st = st.
Proof. induction n as [|n IH]; [reflexivity|exact IH]. Qed.

(** [ThFindProd] prints its line and changes no global. *)
Lemma ThFindProd_frame p st :
  ThFindProd p st = ([Printf p.1.1 p.1.2 p.2], st).
Proof.
  destruct p as [[threadNum start] end_]. unfold ThFindProd.
  rewrite ThFindProd_loop_id. reflexivity.
Qed.

Lemma main_create_loop_globals indices n i params st :
  (main_create_loop indices n i params st).2 = st.
Proof.
  revert i params. induction n as [|n IH]; intros i params; simpl.
  - reflexivity.
  - rewrite ThFindProd_loop_id.
    specialize (IH (i + 1)
      (array_set params i
         (i, seg_start (param_get indices i), seg_end (param_get indices i)))).
    destruct (main_create_loop indices n (i + 1) _ st) as [[evs ps] st'].
    exact IH.
Qed.

Lemma join_barrier_round_globals indices st :
  (join_barrier_round indices st).2 = InitSharedVars st.
Proof.
  unfold join_barrier_round.
  pose proof (main_create_loop_globals indices
                (Z.to_nat (gThreadCount (InitSharedVars st))) 0 fresh_rows
                (InitSharedVars st)) as H.
  destruct (main_create_loop indices _ 0 fresh_rows (InitSharedVars st))
    as [[evs ps] st'].
  simpl in *. exact H.
Qed.

Lemma InitSharedVars_loop_gThreadCount n i st :
  gThreadCount (InitSharedVars_loop n i st) = gThreadCount st.
Proof.
  revert i st. induction n as [|n IH]; intros i st; simpl; [reflexivity|].
  rewrite IH. reflexivity.
Qed.

Lemma InitSharedVars_loop_gData n i st :
  gData (InitSharedVars_loop n i st) = gData st.
Proof.
  revert i st. induction n as [|n IH]; intros i st; simpl; [reflexivity|].
  rewrite IH. reflexivity.
Qed.

Lemma InitSharedVars_loop_length n i st :
  length (gThreadProd (InitSharedVars_loop n i st)) = length (gThreadProd st).
Proof.
  revert i st. induction n as [|n IH]; intros i st; simpl; [reflexivity|].
  rewrite IH. simpl. apply length_array_set.
Qed.

(** The loop of [InitSharedVars] leaves the cells before [i] alone and
    sets the [n] cells from [i] to 1. *)
Lemma InitSharedVars_loop_before n i st j :
  j < i -> array_get (gThreadProd (InitSharedVars_loop n i st)) j
           = array_get (gThreadProd st) j.
Proof.
  revert i st. induction n as [|n IH]; intros i st Hj; simpl; [reflexivity|].
  rewrite IH by lia. simpl. apply array_get_set_ne. lia.
Qed.

Lemma InitSharedVars_loop_ones n i st j :
  0 <= i -> i + Z.of_nat n <= Z.of_nat (length (gThreadProd st)) ->
  i <= j < i + Z.of_nat n ->
  array_get (gThreadProd (InitSharedVars_loop n i st)) j = 1.
Proof.
  revert i st. induction n as [|n IH]; intros i st Hi Hlen Hj; [lia|].
  simpl. destruct (decide (j = i)) as [->|Hne].
  - rewrite InitSharedVars_loop_before by lia. simpl.
    apply array_get_set_eq. lia.
  - apply IH; simpl; rewrite ?length_array_set; lia.
Qed.

Lemma mod_step_1_1 : mod_step 1 1 = 1.
Proof. reflexivity. Qed.

Lemma ComputeTotalProduct_loop_ones g n i :
  (forall j, i <= j < i + Z.of_nat n -> array_get g j = 1) ->
  ComputeTotalProduct_loop g n i 1 = 1.
Proof.
  revert i. induction n as [|n IH]; intros i Hones; simpl; [reflexivity|].
  rewrite Hones by lia. rewrite mod_step_1_1.
  apply IH. intros j Hj. apply Hones. lia.
Qed.

Lemma ComputeTotalProduct_InitSharedVars st :
  gThreadCount st <= Z.of_nat (length (gThreadProd st)) ->
  ComputeTotalProduct (InitSharedVars st) = 1.
Proof.
  intros HT. unfold ComputeTotalProduct, InitSharedVars. simpl.
  rewrite InitSharedVars_loop_gThreadCount.
  apply ComputeTotalProduct_loop_ones. intros j Hj.
  apply InitSharedVars_loop_ones; lia.
Qed.

(** C3: [ThFindProd] leaves [gThreadProd] and [gThreadDone] as they are
    and stores no product; hence after [InitSharedVars] and the round in
    which the parent joins every thread, [ComputeTotalProduct] returns 1
    whatever [gData] holds. *)
Theorem ThFindProd_publishes_nothing (st : Shared) :
  (forall p : param,
     gThreadProd (ThFindProd p st).2 = gThreadProd st /\
     gThreadDone (ThFindProd p st).2 = gThreadDone st /\
     filter is_store (ThFindProd p st).1 = []) /\
  (gThreadCount st <= Z.of_nat (length (gThreadProd st)) ->
   forall indices : list param,
     ComputeTotalProduct (join_barrier_round indices st).2 = 1).
Proof.
  split.
  - intros p. rewrite ThFindProd_frame. repeat split.
  - intros HT indices. rewrite join_barrier_round_globals.
    apply ComputeTotalProduct_InitSharedVars, HT.
Qed.

Lemma ThFindProd_publishes_nothing_witness :
  let st := mkShared [2; 3; 4] 2 0 (replicate 16 0) (replicate 16 false) 0 0 in
  gThreadCount st <= Z.of_nat (length (gThreadProd st)) /\
  ComputeTotalProduct
    (join_barrier_round (CalculateIndices 3 2 fresh_rows) st).2 = 1.
Proof.
  intros st.
  assert (gThreadCount st <= Z.of_nat (length (gThreadProd st))) as HT
    by (simpl; lia).
  split; [exact HT|].
  exact (proj2 (ThFindProd_publishes_nothing st) HT _).
Defined.

(** C1 at a failing input: on the array [2; 3; 4] with two threads the
    sequential reducer returns 24 and the round with [ThFindProd]
    reports 1. *)
Theorem join_barrier_product_differs :
  let st := mkShared [2; 3; 4] 2 0 (replicate 16 0) (replicate 16 false) 0 0 in
  SqFindProd (gData st) 3 = 24 /\ join_barrier_product 3 st = 1.
Proof. split; vm_compute; reflexivity. Qed.

End JoinBarrier.

(** ** The program *)

Section Program.

Variable rand_seq : Z -> nat -> Z.
Variable atoi : string -> Z.

Lemma main_rejects argv st :
  ~ accepted atoi argv -> aborted (main rand_seq atoi argv st).1.
Proof.
  intros Hbad. unfold main, abort, aborted.
  repeat (destruct (decide _); [simpl; eauto|]).
  exfalso. apply Hbad. unfold accepted. simpl in *. repeat split; lia.
Qed.

Lemma main_runs argv st :
  accepted atoi argv ->
  exists round st',
    (main rand_seq atoi argv st).1
    = Report Sequential
        (SqFindProd
           (GenerateInput rand_seq (atoi (arg argv 1)) (atoi (arg argv 3))
                          (gData st))
           (atoi (arg argv 1)))
        :: round ++ [Report JoinBarrier (ComputeTotalProduct st'); Exit 0]
    /\ reports round = []
    /\ filter is_created round <> [].
Proof.
  intros (Hargc & HN & HT & Hz). unfold main.
  rewrite decide_False by lia.
  rewrite decide_False by lia.
  rewrite decide_False by (simpl; lia).
  rewrite decide_False by lia.
  cbn zeta.
  set (st1 := set_gData _ (set_gThreadCount _ st)).
  set (indices := CalculateIndices _ _ _).
  unfold join_barrier_round.
  assert (gThreadCount (InitSharedVars st1) = atoi (arg argv 2)) as HTc.
  { unfold InitSharedVars. simpl. apply InitSharedVars_loop_gThreadCount. }
  rewrite HTc.
  set (n := Z.to_nat (atoi (arg argv 2))).
  assert (n <> 0%nat) as Hn by lia.
  assert (forall m i, reports (main_join_loop m i) = []) as Hjoin.
  { induction m as [|m IHm]; intros i; [reflexivity|]. apply (IHm (i + 1)). }
  assert (forall m i ps s,
            reports (main_create_loop indices m i ps s).1.1 = []) as Hcreate.
  { induction m as [|m IHm]; intros i ps s; [reflexivity|].
    simpl. specialize (IHm (i + 1)
      (array_set ps i (i, seg_start (param_get indices i),
                          seg_end (param_get indices i)))
      (ThFindProd_loop
         (span (seg_start (param_get indices i)) (seg_end (param_get indices i)))
         s)).
    destruct (main_create_loop indices m (i + 1) _ _) as [[evs ps'] s'].
    exact IHm. }
  pose proof (Hcreate n 0 fresh_rows (InitSharedVars st1)) as Hrep.
  assert (filter is_created
            (main_create_loop indices n 0 fresh_rows (InitSharedVars st1)).1.1
          <> []) as Hcr.
  { destruct n as [|m]; [congruence|]. simpl.
    destruct (main_create_loop indices m (0 + 1) _ _) as [[evs ps'] s'].
    discriminate. }
  destruct (main_create_loop indices n 0 fresh_rows (InitSharedVars st1))
    as [[created ps'] s'].
  cbn [fst snd] in Hrep, Hcr |- *.
  exists (created ++ main_join_loop n 0), s'. split; [reflexivity|]. split.
  - unfold reports in *. rewrite omap_app, Hrep, Hjoin. reflexivity.
  - rewrite filter_app. intros Heq. apply app_eq_nil in Heq as [Heq _].
    contradiction.
Qed.

Lemma accepted_dec argv : accepted atoi argv \/ ~ accepted atoi argv.
Proof.
  unfold accepted.
  destruct (decide (length argv = 4%nat)); [|tauto].
  destruct (decide (0 < atoi (arg argv 1) <= MAX_SIZE)); [|tauto].
  destruct (decide (0 < atoi (arg argv 2) <= MAX_THREADS)); [|tauto].
  destruct (decide (-1 <= atoi (arg argv 3) < atoi (arg argv 1))); tauto.
Qed.

(** C8, amended: [main] stops on a configuration error, with one line
    on the standard error and exit status -1 and before any thread is
    created, exactly when the command line has not three arguments, or
    the array size is not in 1..[MAX_SIZE], or the thread count is not
    in 1..[MAX_THREADS], or the index for the zero is not in
    -1..size-1.  Otherwise it runs to [exit(0)]: a thread count above the
    array size is accepted as long as it is at most [MAX_THREADS]. *)
Theorem main_configuration_errors (argv : list string) (st : Shared) :
  let tr := (main rand_seq atoi argv st).1 in
  let arraySize := atoi (arg argv 1) in
  let threadCount := atoi (arg argv 2) in
  let indexForZero := atoi (arg argv 3) in
  (aborted tr <->
     length argv <> 4%nat \/
     arraySize <= 0 \/ arraySize > MAX_SIZE \/
     threadCount <= 0 \/ threadCount > MAX_THREADS \/
     indexForZero < -1 \/ indexForZero >= arraySize) /\
  (aborted tr -> filter is_created tr = [] /\ reports tr = []) /\
  (~ aborted tr -> last tr = Some (Exit 0)).
Proof.
  intros tr arraySize threadCount indexForZero.
  assert (accepted atoi argv -> ~ aborted tr /\ last tr = Some (Exit 0)) as Hok.
  { intros Hacc. destruct (main_runs argv st Hacc) as (round & st' & Htr & _).
    unfold tr. rewrite Htr. split.
    - intros [msg Hmsg]. discriminate.
    - match goal with
      | |- last (?x :: ?l ++ [?a; ?b]) = _ =>
          replace (x :: l ++ [a; b]) with ((x :: l ++ [a]) ++ [b])
            by (simpl; rewrite <- app_assoc; reflexivity)
      end.
      apply last_snoc. }
  split; [|split].
  - split.
    + intros Hab. destruct (accepted_dec argv) as [Hacc|Hrej].
      * destruct (Hok Hacc) as [Hn _]. contradiction.
      * unfold accepted in Hrej.
        fold arraySize threadCount indexForZero in Hrej.
        destruct (decide (length argv = 4%nat)); [|tauto]. right. lia.
    + intros Hbad. apply main_rejects. unfold accepted.
      fold arraySize threadCount indexForZero. lia.
  - intros [msg ->]. split; reflexivity.
  - intros Hn. destruct (accepted_dec argv) as [Hacc|Hrej].
    + apply Hok, Hacc.
    + exfalso. apply Hn, main_rejects, Hrej.
Qed.

(** C4 at the code: a run that is not stopped by a configuration error
    reports two products, the sequential one and the one of the round in
    which the parent joins every thread, and then exits; the modes
    [BusyWait] and [CounterSignal] report nothing. *)
Theorem main_reports_two_modes (argv : list string) (st : Shared) :
  let tr := (main rand_seq atoi argv st).1 in
  aborted tr \/
  exists p1 p2, reports tr = [(Sequential, p1); (JoinBarrier, p2)].
Proof.
  intros tr. destruct (accepted_dec argv) as [Hacc|Hrej].
  - right. destruct (main_runs argv st Hacc) as (round & st' & Htr & Hrep & _).
    unfold tr. rewrite Htr. eexists _, _.
    unfold reports in *. cbn [omap list_omap].
    rewrite omap_app, Hrep. reflexivity.
  - left. apply main_rejects, Hrej.
Qed.

End Program.

Section Runs.

(** C2 at a failing input: for the command line [MTFindProd 1 1 0] the
    array is the single cell 0; the sequential product is 0 and the round
    with [ThFindProd] reports 1, with any [rand]. *)
Theorem join_barrier_misses_zero (rand_seq : Z -> nat -> Z) :
  let run := main rand_seq atoi_decimal
                  ["MTFindProd"; "1"; "1"; "0"]%string (start_state 1) in
  gData run.2 = [0] /\
  reports run.1 = [(Sequential, 0); (JoinBarrier, 1)].
Proof. split; vm_compute; reflexivity. Qed.

(** C8 as stated fails: two threads for an array of one cell is not a
    configuration error; both threads are created and the run ends with
    [exit(0)]. *)
Lemma main_accepts_more_threads_than_cells :
  let tr := (main rand_lcg atoi_decimal
                  ["MTFindProd"; "1"; "2"; "-1"]%string (start_state 1)).1 in
  atoi_decimal "2" > atoi_decimal "1" /\
  tr = [Report Sequential 1711;
        Created 0 RThFindProd (0, 0, 0); Created 1 RThFindProd (1, 1, 0);
        Joined 0; Joined 1; Report JoinBarrier 1; Exit 0] /\
  ~ aborted tr.
Proof.
  intros tr. split; [vm_compute; reflexivity|].
  assert (tr = [Report Sequential 1711;
        Created 0 RThFindProd (0, 0, 0); Created 1 RThFindProd (1, 1, 0);
        Joined 0; Joined 1; Report JoinBarrier 1; Exit 0]) as Htr
    by (vm_compute; reflexivity).
  split; [exact Htr|]. rewrite Htr. intros [msg Hmsg]. discriminate.
Qed.

End Runs.

(** ** Input generation *)

Section Generate.

Variable rand_seq : Z -> nat -> Z.

Lemma GetRand_draw seed (c : nat) :
  0 <= rand_seq seed c ->
  GetRand rand_seq 1 MAX_RANDOM_NUMBER (seed, c)
  = (1 + rand_seq seed c mod MAX_RANDOM_NUMBER, (seed, S c)).
Proof.
  intros Hr. unfold GetRand, rand. cbn [fst snd].
  change (Int.add (Int.sub MAX_RANDOM_NUMBER 1) 1) with MAX_RANDOM_NUMBER.
  rewrite Z.rem_mod_nonneg by (unfold MAX_RANDOM_NUMBER; lia).
  pose proof (Z.mod_pos_bound (rand_seq seed c) MAX_RANDOM_NUMBER) as Hb.
  unfold MAX_RANDOM_NUMBER in *.
  rewrite add_small; [reflexivity|].
  unfold Int.in_range, Int.min_int, Int.max_int. lia.
Qed.

Hypothesis rand_nonneg : forall k, 0 <= rand_seq RANDOM_SEED k.

Lemma GenerateInput_loop_length n i c g :
  length (GenerateInput_loop rand_seq n i (RANDOM_SEED, c) g) = length g.
Proof.
  revert i c g. induction n as [|n IH]; intros i c g; [reflexivity|].
  cbn [GenerateInput_loop]. rewrite GetRand_draw by apply rand_nonneg.
  rewrite IH. apply length_array_set.
Qed.

Lemma GenerateInput_loop_before n i c g j :
  j < i ->
  array_get (GenerateInput_loop rand_seq n i (RANDOM_SEED, c) g) j
  = array_get g j.
Proof.
  revert i c g. induction n as [|n IH]; intros i c g Hj; [reflexivity|].
  cbn [GenerateInput_loop]. rewrite GetRand_draw by apply rand_nonneg.
  rewrite IH by lia. apply array_get_set_ne. lia.
Qed.

(** Cell [j] receives the draw of the call of [rand] of its turn. *)
Lemma GenerateInput_loop_cell n i c g j :
  0 <= i -> i + Z.of_nat n <= Z.of_nat (length g) ->
  i <= j < i + Z.of_nat n ->
  array_get (GenerateInput_loop rand_seq n i (RANDOM_SEED, c) g) j
  = 1 + rand_seq RANDOM_SEED (c + Z.to_nat (j - i)) mod MAX_RANDOM_NUMBER.
Proof.
  revert i c g. induction n as [|n IH]; intros i c g Hi Hlen Hj; [lia|].
  cbn [GenerateInput_loop]. rewrite GetRand_draw by apply rand_nonneg.
  destruct (decide (j = i)) as [->|Hne].
  - rewrite GenerateInput_loop_before by lia.
    rewrite array_get_set_eq by lia.
    rewrite Z.sub_diag. change (Z.to_nat 0) with 0%nat.
    rewrite Nat.add_0_r. reflexivity.
  - rewrite IH; rewrite ?length_array_set; try lia.
    do 3 f_equal. lia.
Qed.

Lemma GenerateInput_fill_cell size g j :
  0 <= size <= Z.of_nat (length g) -> 0 <= j < size ->
  array_get (GenerateInput_fill rand_seq size g) j
  = 1 + rand_seq RANDOM_SEED (Z.to_nat j) mod MAX_RANDOM_NUMBER.
Proof.
  intros Hsize Hj. unfold GenerateInput_fill, srand.
  rewrite GenerateInput_loop_cell by lia.
  rewrite Z.sub_0_r. reflexivity.
Qed.

(** C10: with a [rand] that returns non-negative values, [GenerateInput]
    fills the first [size] cells with values fixed by the seed, each in
    1..[MAX_RANDOM_NUMBER], then sets the cell [indexForZero] to 0 exactly
    when [0 <= indexForZero < size]; so a cell of the generated array is 0
    if and only if it is that cell, and the array holds a zero if and
    only if such an index was given. *)
Theorem GenerateInput_contract (gData : list Z) (size indexForZero : Z) :
  1 <= size <= Z.of_nat (length gData) ->
  let filled := GenerateInput_fill rand_seq size gData in
  let out := GenerateInput rand_seq size indexForZero gData in
  (forall i, 0 <= i < size ->
     array_get filled i
     = 1 + rand_seq RANDOM_SEED (Z.to_nat i) mod MAX_RANDOM_NUMBER /\
     1 <= array_get filled i <= MAX_RANDOM_NUMBER) /\
  out = (if decide (0 <= indexForZero < size)
         then array_set filled indexForZero 0 else filled) /\
  length out = length gData /\
  (forall i, 0 <= i < size -> array_get out i = 0 <-> i = indexForZero) /\
  ((exists i, 0 <= i < size /\ array_get out i = 0)
   <-> 0 <= indexForZero < size).
Proof.
  intros Hsize filled out.
  assert (forall i, 0 <= i < size ->
     array_get filled i
     = 1 + rand_seq RANDOM_SEED (Z.to_nat i) mod MAX_RANDOM_NUMBER /\
     1 <= array_get filled i <= MAX_RANDOM_NUMBER) as Hfill.
  { intros i Hi. unfold filled.
    rewrite GenerateInput_fill_cell by lia. split; [reflexivity|].
    pose proof (Z.mod_pos_bound (rand_seq RANDOM_SEED (Z.to_nat i))
                                MAX_RANDOM_NUMBER) as Hb.
    unfold MAX_RANDOM_NUMBER in *. lia. }
  assert (length filled = length gData) as Hlen.
  { unfold filled, GenerateInput_fill, srand. apply GenerateInput_loop_length. }
  assert (out = (if decide (0 <= indexForZero < size)
                 then array_set filled indexForZero 0 else filled)) as Hout.
  { unfold out, GenerateInput. fold filled.
    destruct (decide (indexForZero >= 0 /\ indexForZero < size)),
             (decide (0 <= indexForZero < size)); try lia; reflexivity. }
  assert (forall i, 0 <= i < size ->
            array_get out i = 0 <-> i = indexForZero) as Hzero.
  { intros i Hi. rewrite Hout.
    destruct (decide (0 <= indexForZero < size)) as [Hin|Hnin].
    - destruct (decide (i = indexForZero)) as [->|Hne].
      + rewrite array_get_set_eq by lia. tauto.
      + rewrite array_get_set_ne by congruence.
        destruct (Hfill i Hi) as [_ Hrange]. split; [lia|congruence].
    - destruct (Hfill i Hi) as [_ Hrange]. split; lia. }
  split; [exact Hfill|]. split; [exact Hout|]. split; [|split].
  - rewrite Hout. destruct (decide _); rewrite ?length_array_set; exact Hlen.
  - exact Hzero.
  - split.
    + intros (i & Hi & Hz). apply Hzero in Hz; [subst i; exact Hi|exact Hi].
    + intros Hin. exists indexForZero. split; [exact Hin|].
      apply Hzero; [exact Hin|reflexivity].
Qed.

End Generate.

Section GenerateRun.

Lemma lcg_nonneg x k : 0 <= x -> 0 <= lcg x k.
Proof.
  revert x. induction k as [|k IH]; intros x Hx; simpl; [exact Hx|].
  apply IH. apply Z.mod_pos_bound. lia.
Qed.

Lemma rand_lcg_nonneg seed k : 0 <= rand_lcg seed k.
Proof.
  unfold rand_lcg. apply lcg_nonneg. apply Z.mod_pos_bound. lia.
Qed.

Lemma GenerateInput_contract_witness :
  let gData := replicate 5 0 in
  let out := GenerateInput rand_lcg 5 3 gData in
  1 <= 5 <= Z.of_nat (length gData) /\
  out = [1711; 704; 525; 0; 1035] /\
  (forall i, 0 <= i < 5 -> array_get out i = 0 <-> i = 3) /\
  ((exists i, 0 <= i < 5 /\ array_get out i = 0) <-> 0 <= 3 < 5).
Proof.
  intros gData out.
  assert (1 <= 5 <= Z.of_nat (length gData)) as Hsize by (simpl; lia).
  destruct (GenerateInput_contract rand_lcg (rand_lcg_nonneg RANDOM_SEED)
                                   gData 5 3 Hsize)
    as (_ & _ & _ & Hcell & Hany).
  split; [exact Hsize|]. split; [vm_compute; reflexivity|].
  split; [exact Hcell|exact Hany].
Defined.

End GenerateRun.

(** ** The worker with semaphores *)

Section SemaphoreWorker.


Lemma segment_product_cells g start end_ :
  Forall safe_factor (cells g start (span start end_)) ->
  segment_product g start end_
  = Z.rem (list_product (cells g start (span start end_))) NUM_LIMIT.
Proof.
  intros Hsafe. rewrite segment_product_scan.
  rewrite segment_scan_product by auto using reduced_1.
  rewrite Z.mul_1_l. reflexivity.
Qed.



End SemaphoreWorker.

(** ** Partition, workers and aggregation together *)

Section Compose.

Implicit Types (g : list Z) (rows : list param).

Lemma chained_le a rows b : chained a rows b -> a <= b.
Proof.
  revert a. induction rows as [|p rows IH]; simpl; intros a Hch.
  - lia.
  - destruct Hch as (Hs & Hne & Hch). apply IH in Hch. lia.
Qed.

(** The cells of segments laid end to end are the cells of the range. *)
Lemma cells_chained g a rows b :
  chained a rows b ->
  concat ((fun p => cells g (seg_start p) (span (seg_start p) (seg_end p)))
            <$> rows)
  = cells g a (Z.to_nat (b - a)).
Proof.
  revert a. induction rows as [|p rows IH]; intros a Hch.
  - simpl in Hch. subst b. rewrite Z.sub_diag. reflexivity.
  - destruct Hch as (Hs & Hne & Hch).
    pose proof (chained_le _ _ _ Hch) as Hle.
    rewrite fmap_cons. cbn [concat]. rewrite (IH _ Hch), Hs.
    replace (Z.to_nat (b - a))
      with (span a (seg_end p) + Z.to_nat (b - (seg_end p + 1)))%nat
      by (unfold span; lia).
    rewrite cells_app. do 2 f_equal. unfold span. lia.
Qed.

Lemma list_product_concat (ls : list (list Z)) :
  list_product (concat ls) = list_product (list_product <$> ls).
Proof.
  induction ls as [|l ls IH]; [reflexivity|].
  rewrite fmap_cons. cbn [concat].
  rewrite list_product_app, list_product_cons, IH. reflexivity.
Qed.

Lemma rem_list_product_rem (l : list Z) :
  Z.rem (list_product ((fun x => Z.rem x NUM_LIMIT) <$> l)) NUM_LIMIT
  = Z.rem (list_product l) NUM_LIMIT.
Proof.
  assert (NUM_LIMIT <> 0) as HM by (unfold NUM_LIMIT; lia).
  induction l as [|x l IH]; [reflexivity|].
  rewrite fmap_cons, !list_product_cons.
  rewrite Z.mul_rem_idemp_l by exact HM.
  rewrite <- Z.mul_rem_idemp_r by exact HM.
  rewrite IH. apply Z.mul_rem_idemp_r, HM.
Qed.

Lemma reduced_safe x : reduced x -> safe_factor x.
Proof. unfold reduced, safe_factor, NUM_LIMIT, Int.max_int. lia. Qed.

Lemma cells_all (l : list Z) : cells l 0 (length l) = l.
Proof.
  rewrite <- (Nat2Z.id (length l)) at 1.
  rewrite cells_take by lia. rewrite Nat2Z.id. apply take_ge. lia.
Qed.

(** With every cell in the safe range, folding the products of the
    segments of a partition, as [ComputeTotalProduct] does, gives what
    [SqFindProd] returns on the whole range. *)
Lemma aggregate_partial_products g rows size :
  chained 0 rows size -> size <= Z.of_nat (length g) ->
  Forall safe_factor (take (Z.to_nat size) g) ->
  ComputeTotalProduct_loop (partial_products g rows) (length rows) 0 1
  = SqFindProd g size.
Proof.
  intros Hch Hsize Hsafe.
  pose proof (chained_le _ _ _ Hch) as H0.
  pose proof (cells_chained g _ _ _ Hch) as Hcat.
  rewrite Z.sub_0_r, cells_take in Hcat by lia.
  set (segs := (fun p => cells g (seg_start p) (span (seg_start p) (seg_end p)))
                 <$> rows) in *.
  assert (Forall (Forall safe_factor) segs) as Hsegs.
  { rewrite <- Hcat in Hsafe. clear -Hsafe.
    induction segs as [|l ls IH]; [constructor|].
    cbn [concat] in Hsafe. apply Forall_app in Hsafe as [Hl Hls].
    constructor; auto. }
  assert (partial_products g rows
          = (fun x => Z.rem x NUM_LIMIT) <$> (list_product <$> segs)) as Hpp.
  { unfold partial_products, segs in *. clear -Hsegs.
    induction rows as [|p rows IH]; [reflexivity|].
    rewrite !fmap_cons in *. apply Forall_cons in Hsegs as [Hp Hrest].
    rewrite IH by exact Hrest. f_equal.
    apply segment_product_cells, Hp. }
  rewrite SqFindProd_cells by (assumption || lia).
  rewrite <- Hcat, list_product_concat, <- rem_list_product_rem, <- Hpp.
  replace (length rows) with (length (partial_products g rows))
    by (unfold partial_products; apply length_fmap).
  rewrite ComputeTotalProduct_loop_product.
  - rewrite cells_all, Z.mul_1_l. reflexivity.
  - apply reduced_1.
  - rewrite cells_all, Hpp. apply Forall_fmap, Forall_forall.
    intros x _. apply reduced_safe, reduced_rem.
Qed.

End Compose.

(** ** A round of workers with semaphores, run in turn *)

Section SemaphoreRound.

Implicit Types (g : list Z) (rows : list param) (st : Shared).

(** The globals after one call that finds the mutex free. *)
Lemma ThFindProdWithSemaphore_globals p st :
  0 < mutex st ->
  exists tr st',
    ThFindProdWithSemaphore p st = Some (tr, st') /\
    gThreadProd st'
    = array_set (gThreadProd st) p.1.1 (segment_product (gData st) p.1.2 p.2) /\
    gData st' = gData st /\ gThreadCount st' = gThreadCount st /\
    mutex st' = mutex st.
Proof.
  intros Hmutex. destruct p as [[threadNum start] end_].
  unfold ThFindProdWithSemaphore. cbn [fst snd].
  destruct (decide (segment_product (gData st) start end_ = 0)).
  - eexists _, _. split; [reflexivity|]. repeat split.
  - unfold sem_wait. rewrite decide_True by exact Hmutex.
    match goal with
    | |- context [decide (gDoneThreadCount ?s = gThreadCount ?s)] =>
        destruct (decide (gDoneThreadCount s = gThreadCount s))
    end;
      (eexists _, _; split; [reflexivity|]; repeat split; simpl; lia).
Qed.

Lemma run_in_turn_products rows :
  forall (pre old post : list Z) st,
    gThreadProd st = pre ++ old ++ post -> length old = length rows ->
    (forall (j : nat) p, rows !! j = Some p ->
                         p.1.1 = Z.of_nat (length pre + j)) ->
    0 < mutex st ->
    exists st',
      run_in_turn rows st = Some st' /\
      gThreadProd st' = pre ++ partial_products (gData st) rows ++ post /\
      gData st' = gData st /\ gThreadCount st' = gThreadCount st.
Proof.
  induction rows as [|p rows IH]; intros pre old post st Hprod Hlen Hnum Hmutex.
  - destruct old; [|discriminate]. exists st. repeat split. exact Hprod.
  - destruct old as [|o old]; [discriminate|]. injection Hlen as Hlen.
    destruct (ThFindProdWithSemaphore_globals p st Hmutex)
      as (tr & st1 & Hrun & Hprod1 & Hdata1 & HT1 & Hmutex1).
    cbn [run_in_turn]. rewrite Hrun.
    rewrite (Hnum 0%nat p eq_refl), Nat.add_0_r, Hprod in Hprod1.
    change ((o :: old) ++ post) with (o :: old ++ post) in Hprod1.
    rewrite array_set_middle in Hprod1.
    set (v := segment_product (gData st) p.1.2 p.2) in *.
    destruct (IH (pre ++ [v]) old post st1) as (st' & Hrun' & Hprod' & Hdata' & HT').
    + rewrite Hprod1, <- app_assoc. reflexivity.
    + exact Hlen.
    + intros j p' Hj. rewrite (Hnum (S j) p' Hj), length_app. simpl. lia.
    + lia.
    + exists st'. split; [exact Hrun'|]. split; [|split; congruence].
      rewrite Hprod', Hdata1, <- app_assoc. reflexivity.
Qed.

Lemma ComputeTotalProduct_loop_ext g g' n i prod :
  (forall j, i <= j < i + Z.of_nat n -> array_get g j = array_get g' j) ->
  ComputeTotalProduct_loop g n i prod = ComputeTotalProduct_loop g' n i prod.
Proof.
  revert i prod. induction n as [|n IH]; intros i prod Hext; [reflexivity|].
  simpl. rewrite (Hext i) by lia. apply IH. intros j Hj. apply Hext. lia.
Qed.

Lemma array_get_app_l (l1 l2 : list Z) j :
  0 <= j < Z.of_nat (length l1) -> array_get (l1 ++ l2) j = array_get l1 j.
Proof.
  intros Hj. unfold array_get. rewrite lookup_app_l by lia. reflexivity.
Qed.

Lemma InitSharedVars_loop_mutex n i st :
  mutex (InitSharedVars_loop n i st) = mutex st.
Proof.
  revert i st. induction n as [|n IH]; intros i st; simpl; [reflexivity|].
  rewrite IH. reflexivity.
Qed.

Lemma CalculateIndices_take arraySize thrdCnt (indices : list param) :
  1 <= thrdCnt <= arraySize -> arraySize <= Int.max_int ->
  thrdCnt <= Z.of_nat (length indices) ->
  take (Z.to_nat thrdCnt) (CalculateIndices arraySize thrdCnt indices)
  = rows_from (arraySize / thrdCnt) (Z.to_nat thrdCnt) 0 0
              (arraySize mod thrdCnt).
Proof.
  intros HT HN Hlen. rewrite CalculateIndices_rows by assumption.
  apply take_app_length'. symmetry. apply length_rows_from.
Qed.

(** Had [main] run [ThFindProdWithSemaphore] on the rows of
    [CalculateIndices], one thread after the other, [ComputeTotalProduct]
    would return what [SqFindProd] returns, zero or not, for cells in the
    safe range. *)
Lemma semaphore_round_in_turn arraySize st :
  1 <= gThreadCount st <= arraySize ->
  arraySize <= Z.of_nat (length (gData st)) -> arraySize <= Int.max_int ->
  gThreadCount st <= MAX_THREADS ->
  gThreadCount st <= Z.of_nat (length (gThreadProd st)) ->
  0 < mutex st ->
  Forall safe_factor (take (Z.to_nat arraySize) (gData st)) ->
  let rows := take (Z.to_nat (gThreadCount st))
                   (CalculateIndices arraySize (gThreadCount st) fresh_rows) in
  exists st',
    run_in_turn rows (InitSharedVars st) = Some st' /\
    ComputeTotalProduct st' = SqFindProd (gData st) arraySize.
Proof.
  intros HT HN Hmax H16 Hslots Hmutex Hsafe rows.
  set (T := gThreadCount st) in *.
  pose proof (Z.div_mod arraySize T ltac:(lia)) as Hdm.
  pose proof (Z.mod_pos_bound arraySize T ltac:(lia)) as Hr.
  assert (1 <= arraySize / T) as Hq by (apply Z.div_le_lower_bound; lia).
  assert (rows = rows_from (arraySize / T) (Z.to_nat T) 0 0 (arraySize mod T))
    as Hrows.
  { apply CalculateIndices_take; try lia. unfold fresh_rows, MAX_THREADS in *.
    rewrite length_replicate. lia. }
  assert (length rows = Z.to_nat T) as Hlr
    by (rewrite Hrows; apply length_rows_from).
  assert (chained 0 rows arraySize) as Hch.
  { pose proof (rows_from_chained (arraySize / T) (Z.to_nat T) 0 0
                                  (arraySize mod T) Hq (proj1 Hr)) as Hc.
    replace (0 + Z.of_nat (Z.to_nat T) * (arraySize / T)
             + Z.min (Z.of_nat (Z.to_nat T)) (arraySize mod T))
      with arraySize in Hc by (rewrite Z2Nat.id by lia; lia).
    rewrite Hrows. exact Hc. }
  set (st0 := InitSharedVars st).
  assert (gData st0 = gData st) as Hdata0
    by (unfold st0, InitSharedVars; simpl; apply InitSharedVars_loop_gData).
  assert (gThreadCount st0 = T) as HT0
    by (unfold st0, InitSharedVars; simpl; apply InitSharedVars_loop_gThreadCount).
  assert (length (gThreadProd st0) = length (gThreadProd st)) as Hlen0
    by (unfold st0, InitSharedVars; simpl; apply InitSharedVars_loop_length).
  assert (mutex st0 = mutex st) as Hmutex0
    by (unfold st0, InitSharedVars; simpl; apply InitSharedVars_loop_mutex).
  destruct (run_in_turn_products rows []
              (take (Z.to_nat T) (gThreadProd st0))
              (drop (Z.to_nat T) (gThreadProd st0)) st0)
    as (st' & Hrun & Hprod & Hdata & HT').
  - rewrite app_nil_l, take_drop. reflexivity.
  - rewrite length_take, Hlr. lia.
  - intros j p Hj. rewrite Hrows in Hj.
    pose proof (lookup_lt_Some _ _ _ Hj) as Hlt.
    rewrite length_rows_from in Hlt.
    rewrite rows_from_lookup in Hj by lia.
    injection Hj as <-. simpl. lia.
  - lia.
  - exists st'. split; [exact Hrun|].
    unfold ComputeTotalProduct. rewrite HT', HT0, Hprod, app_nil_l, Hdata0.
    rewrite <- Hlr.
    rewrite (ComputeTotalProduct_loop_ext _ (partial_products (gData st) rows)).
    + apply aggregate_partial_products; assumption.
    + intros j Hj. apply array_get_app_l.
      unfold partial_products. rewrite length_fmap. lia.
Qed.

End SemaphoreRound.

(** ** Workers with semaphores, interleaved *)

Section Interleaving.

Implicit Types (st : Shared) (pcs : list pc) (l : pc) (p : param).

(** Stepping alone to the end is the call [ThFindProdWithSemaphore]. *)
Lemma run_steps_alone p st :
  run_steps 5 p AtStart st = ThFindProdWithSemaphore p st.
Proof.
  destruct p as [[threadNum start] end_].
  unfold ThFindProdWithSemaphore. cbn [run_steps worker_step].
  destruct (decide (segment_product (gData st) start end_ = 0));
    [reflexivity|].
  destruct (sem_wait Mutex _) as [st1|]; [|reflexivity].
  cbn [run_steps worker_step].
  match goal with
  | |- context [decide (gDoneThreadCount ?s = gThreadCount ?s)] =>
      destruct (decide (gDoneThreadCount s = gThreadCount s))
  end; reflexivity.
Qed.

(** A step takes the mutex when it enters the part between the wait and
    the post, gives it back when it leaves, and leaves it alone
    otherwise. *)
Lemma worker_step_mutex p l st acts l' st' :
  worker_step p l st = Some (acts, l', st') -> 0 <= mutex st ->
  0 <= mutex st' /\
  mutex st' + critical_weight l' = mutex st + critical_weight l.
Proof.
  destruct p as [[threadNum start] end_]. unfold worker_step.
  intros Hstep Hm. destruct l.
  - injection Hstep as <- <- <-. simpl. unfold critical_weight. simpl. lia.
  - destruct (decide (localProd = 0)).
    + injection Hstep as <- <- <-. unfold critical_weight. simpl. lia.
    + unfold sem_wait in Hstep. simpl in Hstep.
      destruct (decide (0 < mutex st)); [|discriminate].
      injection Hstep as <- <- <-. unfold critical_weight. simpl. lia.
  - injection Hstep as <- <- <-. unfold critical_weight. simpl. lia.
  - destruct (decide (gDoneThreadCount st = gThreadCount st));
      injection Hstep as <- <- <-; unfold critical_weight; simpl; lia.
  - injection Hstep as <- <- <-. unfold critical_weight. simpl. lia.
  - discriminate.
Qed.

Lemma mutex_inv_nonneg st pcs : mutex_inv (st, pcs) -> 0 <= mutex st <= 1.
Proof. intros [[Hm _]|[Hm _]]; simpl in Hm; lia. Qed.

Lemma mutex_inv_update st st' pcs (i : nat) l l' :
  pcs !! i = Some l -> mutex_inv (st, pcs) -> 0 <= mutex st' ->
  mutex st' + critical_weight l' = mutex st + critical_weight l ->
  mutex_inv (st', <[i := l']> pcs).
Proof.
  intros Hi Hinv Hnn Heq. unfold critical_weight in Heq.
  pose proof (lookup_lt_Some _ _ _ Hi) as Hlt.
  destruct Hinv as [[Hm Hnone]|(Hm & h & lh & Hh & Hcrit & Hothers)];
    cbn [fst snd] in *.
  - rewrite (Hnone i l Hi) in Heq.
    destruct (in_critical l') eqn:Hl'; simpl in Heq.
    + right. cbn [fst snd]. split; [lia|]. exists i, l'. split; [|split].
      * apply list_lookup_insert_eq, Hlt.
      * exact Hl'.
      * intros j lj Hji Hj. rewrite list_lookup_insert_ne in Hj by congruence.
        exact (Hnone j lj Hj).
    + left. cbn [fst snd]. split; [lia|]. intros j lj Hj.
      apply list_lookup_insert_Some in Hj as [(-> & -> & _)|[Hji Hj]];
        [exact Hl'|exact (Hnone j lj Hj)].
  - destruct (decide (i = h)) as [->|Hih].
    + assert (lh = l) as -> by congruence. rewrite Hcrit in Heq.
      destruct (in_critical l') eqn:Hl'; simpl in Heq.
      * right. cbn [fst snd]. split; [lia|]. exists h, l'. split; [|split].
        -- apply list_lookup_insert_eq, Hlt.
        -- exact Hl'.
        -- intros j lj Hjh Hj. rewrite list_lookup_insert_ne in Hj by congruence.
           exact (Hothers j lj Hjh Hj).
      * left. cbn [fst snd]. split; [lia|]. intros j lj Hj.
        apply list_lookup_insert_Some in Hj as [(-> & -> & _)|[Hji Hj]];
          [exact Hl'|]. apply (Hothers j lj); congruence.
    + rewrite (Hothers i l Hih Hi) in Heq.
      destruct (in_critical l') eqn:Hl'; simpl in Heq; [lia|].
      right. cbn [fst snd]. split; [lia|]. exists h, lh. split; [|split].
      * rewrite list_lookup_insert_ne by congruence. exact Hh.
      * exact Hcrit.
      * intros j lj Hjh Hj.
        apply list_lookup_insert_Some in Hj as [(-> & -> & _)|[Hji Hj]];
          [exact Hl'|exact (Hothers j lj Hjh Hj)].
Qed.

Lemma sys_step_mutex_inv params s s' :
  sys_step params s s' -> mutex_inv s -> mutex_inv s'.
Proof.
  intros Hstep Hinv. destruct Hstep as [i p l acts l' st st' pcs Hp Hl Hw].
  pose proof (mutex_inv_nonneg _ _ Hinv) as Hm.
  destruct (worker_step_mutex _ _ _ _ _ _ Hw ltac:(lia)) as [Hnn Heq].
  exact (mutex_inv_update _ _ _ _ _ _ Hl Hinv Hnn Heq).
Qed.

Lemma mutex_inv_start st n :
  mutex st = 1 -> mutex_inv (st, replicate n AtStart).
Proof.
  intros Hm. left. split; [exact Hm|]. intros j l Hj.
  apply lookup_replicate in Hj as [-> _]. reflexivity.
Qed.

(** From the start of a round with the mutex free, however the threads
    interleave, at most one of them is between its wait and its post on
    the mutex. *)
Lemma mutual_exclusion params st0 n st pcs (i j : nat) li lj :
  mutex st0 = 1 ->
  rtc (sys_step params) (st0, replicate n AtStart) (st, pcs) ->
  pcs !! i = Some li -> pcs !! j = Some lj ->
  in_critical li = true -> in_critical lj = true -> i = j.
Proof.
  intros Hm Hreach Hi Hj Hci Hcj.
  assert (mutex_inv (st, pcs)) as Hinv.
  { revert Hreach.
    apply (rtc_ind_r (R := sys_step params) (fun s => mutex_inv s)
                     (st0, replicate n AtStart)).
    - apply mutex_inv_start, Hm.
    - intros s s' _ Hstep IH. exact (sys_step_mutex_inv _ _ _ Hstep IH). }
  destruct Hinv as [[_ Hnone]|(_ & h & lh & Hh & _ & Hothers)];
    cbn [fst snd] in *.
  - rewrite (Hnone i li Hi) in Hci. discriminate.
  - destruct (decide (i = h)) as [->|Hih], (decide (j = h)) as [->|Hjh];
      try reflexivity.
    + rewrite (Hothers j lj Hjh Hj) in Hcj. discriminate.
    + rewrite (Hothers i li Hih Hi) in Hci. discriminate.
    + rewrite (Hothers i li Hih Hi) in Hci. discriminate.
Qed.

(** While a thread is between its wait and its post, a step of another
    thread leaves [gDoneThreadCount] as it is: the counter a thread tests
    is the one its own increment wrote. *)
Lemma counter_protected st pcs (i j : nat) li lj p acts lj' st' :
  mutex_inv (st, pcs) ->
  pcs !! i = Some li -> in_critical li = true ->
  j <> i -> pcs !! j = Some lj ->
  worker_step p lj st = Some (acts, lj', st') ->
  gDoneThreadCount st' = gDoneThreadCount st /\ in_critical lj' = false.
Proof.
  intros Hinv Hi Hci Hji Hj Hstep.
  destruct Hinv as [[_ Hnone]|(Hm & h & lh & Hh & _ & Hothers)];
    cbn [fst snd] in *.
  - rewrite (Hnone i li Hi) in Hci. discriminate.
  - assert (i = h) as ->.
    { destruct (decide (i = h)) as [|Hih]; [assumption|].
      rewrite (Hothers i li Hih Hi) in Hci. discriminate. }
    pose proof (Hothers j lj Hji Hj) as Hnc.
    destruct p as [[threadNum start] end_]. unfold worker_step in Hstep.
    destruct lj; try discriminate.
    + injection Hstep as <- <- <-. split; reflexivity.
    + destruct (decide (localProd = 0)).
      * injection Hstep as <- <- <-. split; reflexivity.
      * unfold sem_wait in Hstep. simpl in Hstep.
        rewrite decide_False in Hstep by lia. discriminate.
Qed.

End Interleaving.

(** * Further properties *)

(** ** The partitioner on any sizes *)

Section PartitionAny.

Implicit Types (q cs rem : Z) (n : nat) (rows : list param).

Lemma CalculateIndices_rows_any arraySize thrdCnt (indices : list param) :
  0 <= arraySize <= Int.max_int ->
  1 <= thrdCnt <= Z.of_nat (length indices) ->
  CalculateIndices arraySize thrdCnt indices
  = rows_from (arraySize / thrdCnt) (Z.to_nat thrdCnt) 0 0
              (arraySize mod thrdCnt)
      ++ drop (Z.to_nat thrdCnt) indices.
Proof.
  intros HN HT. unfold CalculateIndices.
  rewrite Z.quot_div_nonneg, Z.rem_mod_nonneg by lia.
  pose proof (Z.div_mod arraySize thrdCnt ltac:(lia)) as Hdm.
  pose proof (Z.mod_pos_bound arraySize thrdCnt ltac:(lia)) as Hr.
  assert (0 <= arraySize / thrdCnt) as Hq by (apply Z.div_pos; lia).
  rewrite <- (take_drop (Z.to_nat thrdCnt) indices) at 1.
  apply (CalculateIndices_loop_rows _ _ []); try lia.
  rewrite length_take. lia.
Qed.

Lemma rows_from_laid_out q n i cs rem :
  0 <= q -> 0 <= rem ->
  laid_out cs (rows_from q n i cs rem)
           (cs + Z.of_nat n * q + Z.min (Z.of_nat n) rem).
Proof.
  revert i cs rem. induction n as [|n IH]; intros i cs rem Hq Hrem.
  - simpl. lia.
  - cbn [rows_from laid_out].
    set (extra := if decide (rem > 0) then 1 else 0).
    assert (extra = 1 /\ 0 < rem \/ extra = 0 /\ rem = 0) as Hextra.
    { unfold extra. destruct (decide (rem > 0)); lia. }
    unfold seg_start, seg_end. cbn [fst snd].
    split; [reflexivity|]. split; [lia|].
    replace (cs + q + extra - 1 + 1) with (cs + q + extra) by lia.
    replace (cs + Z.of_nat (S n) * q + Z.min (Z.of_nat (S n)) rem)
      with (cs + q + extra + Z.of_nat n * q + Z.min (Z.of_nat n) (rem - extra))
      by lia.
    apply IH; lia.
Qed.

Lemma CalculateIndices_laid_out arraySize thrdCnt (indices : list param) :
  0 <= arraySize <= Int.max_int ->
  1 <= thrdCnt <= Z.of_nat (length indices) ->
  take (Z.to_nat thrdCnt) (CalculateIndices arraySize thrdCnt indices)
  = rows_from (arraySize / thrdCnt) (Z.to_nat thrdCnt) 0 0
              (arraySize mod thrdCnt) /\
  laid_out 0 (take (Z.to_nat thrdCnt)
                   (CalculateIndices arraySize thrdCnt indices)) arraySize.
Proof.
  intros HN HT.
  pose proof (Z.div_mod arraySize thrdCnt ltac:(lia)) as Hdm.
  pose proof (Z.mod_pos_bound arraySize thrdCnt ltac:(lia)) as Hr.
  assert (0 <= arraySize / thrdCnt) as Hq by (apply Z.div_pos; lia).
  assert (take (Z.to_nat thrdCnt) (CalculateIndices arraySize thrdCnt indices)
          = rows_from (arraySize / thrdCnt) (Z.to_nat thrdCnt) 0 0
                      (arraySize mod thrdCnt)) as Hrows.
  { rewrite CalculateIndices_rows_any by assumption.
    apply take_app_length'. symmetry. apply length_rows_from. }
  split; [exact Hrows|]. rewrite Hrows.
  pose proof (rows_from_laid_out (arraySize / thrdCnt) (Z.to_nat thrdCnt) 0 0
                                 (arraySize mod thrdCnt) Hq (proj1 Hr)) as Hl.
  replace (0 + Z.of_nat (Z.to_nat thrdCnt) * (arraySize / thrdCnt)
           + Z.min (Z.of_nat (Z.to_nat thrdCnt)) (arraySize mod thrdCnt))
    with arraySize in Hl by (rewrite Z2Nat.id by lia; lia).
  exact Hl.
Qed.

Lemma CalculateIndices_lookup arraySize thrdCnt (indices : list param) (i : nat) :
  0 <= arraySize <= Int.max_int ->
  1 <= thrdCnt <= Z.of_nat (length indices) ->
  Z.of_nat i < thrdCnt ->
  CalculateIndices arraySize thrdCnt indices !! i
  = Some (Z.of_nat i,
          Z.of_nat i * (arraySize / thrdCnt)
            + Z.min (Z.of_nat i) (arraySize mod thrdCnt),
          Z.of_nat i * (arraySize / thrdCnt)
            + Z.min (Z.of_nat i) (arraySize mod thrdCnt)
            + arraySize / thrdCnt
            + (if decide (Z.of_nat i < arraySize mod thrdCnt) then 1 else 0) - 1).
Proof.
  intros HN HT Hi.
  pose proof (Z.mod_pos_bound arraySize thrdCnt ltac:(lia)) as Hr.
  rewrite CalculateIndices_rows_any by assumption.
  rewrite lookup_app_l by (rewrite length_rows_from; lia).
  rewrite rows_from_lookup by lia.
  apply some_row_eq; lia.
Qed.

(** X1: for an array size from 0 to [INT_MAX] and at least one thread,
    also when there are more threads than cells, [CalculateIndices] keeps
    the length of [indices], leaves the rows from [thrdCnt] on as they
    were, and writes into row [i < thrdCnt] the number [i], the start
    [i * q + min i r] and the end [start + q - 1], one more when [i < r]
    (with [q] and [r] the quotient and remainder of the size by the
    thread count); the rows written lie end to end from 0 up to the
    size, some of them possibly empty. *)
Theorem CalculateIndices_closed_form (arraySize thrdCnt : Z)
    (indices : list param) :
  0 <= arraySize <= Int.max_int ->
  1 <= thrdCnt <= Z.of_nat (length indices) ->
  let out := CalculateIndices arraySize thrdCnt indices in
  let q := arraySize / thrdCnt in
  let r := arraySize mod thrdCnt in
  length out = length indices /\
  (forall i : nat, Z.of_nat i < thrdCnt ->
     out !! i
     = Some (Z.of_nat i,
             Z.of_nat i * q + Z.min (Z.of_nat i) r,
             Z.of_nat i * q + Z.min (Z.of_nat i) r + q
               + (if decide (Z.of_nat i < r) then 1 else 0) - 1)) /\
  (forall i : nat, thrdCnt <= Z.of_nat i -> out !! i = indices !! i) /\
  laid_out 0 (take (Z.to_nat thrdCnt) out) arraySize.
Proof.
  intros HN HT out q r. split; [|split; [|split]].
  - unfold out. rewrite CalculateIndices_rows_any by assumption.
    rewrite length_app, length_rows_from, length_drop. lia.
  - intros i Hi. apply CalculateIndices_lookup; assumption.
  - intros i Hi. unfold out. rewrite CalculateIndices_rows_any by assumption.
    rewrite lookup_app_r by (rewrite length_rows_from; lia).
    rewrite length_rows_from, lookup_drop. f_equal. lia.
  - apply CalculateIndices_laid_out; assumption.
Qed.

Lemma CalculateIndices_closed_form_witness :
  let out := CalculateIndices 2 4 fresh_rows in
  take 5 out = [(0, 0, 0); (1, 1, 1); (2, 2, 1); (3, 2, 1); (0, 0, 0)] /\
  length out = length fresh_rows /\
  laid_out 0 (take 4 out) 2.
Proof.
  intros out. split; [reflexivity|].
  assert (0 <= 2 <= Int.max_int) as HN by (unfold Int.max_int; lia).
  assert (1 <= 4 <= Z.of_nat (length fresh_rows)) as HT by (simpl; lia).
  destruct (CalculateIndices_closed_form 2 4 fresh_rows HN HT)
    as (Hlen & _ & _ & Hlaid).
  split; [exact Hlen|exact Hlaid].
Defined.

(** X2: with more threads than cells (which [main] accepts), the first
    [arraySize] rows are the single cells [i..i] and every further row up
    to the thread count is the empty segment starting at [arraySize] and
    ending at [arraySize - 1]; on such a row the loop of a thread runs no
    iteration and the product of the segment is 1. *)
Theorem CalculateIndices_surplus_threads (arraySize thrdCnt : Z)
    (indices : list param) (gData : list Z) :
  0 <= arraySize < thrdCnt -> thrdCnt <= Int.max_int ->
  thrdCnt <= Z.of_nat (length indices) ->
  let out := CalculateIndices arraySize thrdCnt indices in
  (forall i : nat, Z.of_nat i < arraySize ->
     out !! i = Some (Z.of_nat i, Z.of_nat i, Z.of_nat i)) /\
  (forall i : nat, arraySize <= Z.of_nat i < thrdCnt ->
     out !! i = Some (Z.of_nat i, arraySize, arraySize - 1)) /\
  span arraySize (arraySize - 1) = 0%nat /\
  segment_product gData arraySize (arraySize - 1) = 1.
Proof.
  intros HN Hmax HT out.
  assert (arraySize / thrdCnt = 0) as Hq by (apply Z.div_small; lia).
  assert (arraySize mod thrdCnt = arraySize) as Hr by (apply Z.mod_small; lia).
  assert (span arraySize (arraySize - 1) = 0%nat) as Hspan
    by (unfold span; lia).
  split; [|split; [|split]].
  - intros i Hi. unfold out.
    rewrite CalculateIndices_lookup by (unfold Int.max_int in *; lia).
    rewrite Hq, Hr. rewrite decide_True by lia. apply some_row_eq; lia.
  - intros i Hi. unfold out.
    rewrite CalculateIndices_lookup by (unfold Int.max_int in *; lia).
    rewrite Hq, Hr. rewrite decide_False by lia. apply some_row_eq; lia.
  - exact Hspan.
  - unfold segment_product, segment_run. rewrite Hspan. reflexivity.
Qed.

Lemma CalculateIndices_surplus_threads_witness :
  let out := CalculateIndices 1 3 fresh_rows in
  out !! 0%nat = Some (0, 0, 0) /\
  out !! 1%nat = Some (1, 1, 0) /\
  out !! 2%nat = Some (2, 1, 0) /\
  segment_product [7] 1 0 = 1.
Proof.
  intros out.
  assert (0 <= 1 < 3) as HN by lia.
  assert (3 <= Int.max_int) as Hmax by (unfold Int.max_int; lia).
  assert (3 <= Z.of_nat (length fresh_rows)) as HT by (simpl; lia).
  destruct (CalculateIndices_surplus_threads 1 3 fresh_rows [7] HN Hmax HT)
    as (Hcells & Hempty & _ & Hprod).
  split; [apply (Hcells 0%nat); lia|].
  split; [apply (Hempty 1%nat); lia|].
  split; [apply (Hempty 2%nat); lia|exact Hprod].
Defined.

End PartitionAny.

(** ** The modulus is prime *)

Section Prime.

Lemma NUM_LIMIT_prime : Z.prime NUM_LIMIT.
Proof.
  split; [reflexivity|].
  intros n Hn Hdiv.
  assert (forallb (fun k => negb (NUM_LIMIT mod k =? 0))
                  (seqZ 2 (NUM_LIMIT - 2)) = true) as Hall
    by (vm_compute; reflexivity).
  rewrite forallb_forall in Hall.
  assert (negb (NUM_LIMIT mod n =? 0) = true) as Hn'.
  { apply Hall, list_elem_of_In, elem_of_seqZ. lia. }
  apply Z.mod_divide in Hdiv; [|lia].
  rewrite Hdiv in Hn'. discriminate.
Qed.

Lemma mul_mod_nonzero a b :
  0 < a < NUM_LIMIT -> 0 < b < NUM_LIMIT -> (a * b) mod NUM_LIMIT <> 0.
Proof.
  intros Ha Hb Hmod.
  apply Z.mod_divide in Hmod; [|unfold NUM_LIMIT; lia].
  apply (Z.divide_prime_mul _ _ _ NUM_LIMIT_prime) in Hmod as [Hd|Hd];
    apply Z.divide_pos_le in Hd; lia.
Qed.

Lemma list_product_mod_nonzero (l : list Z) :
  Forall (fun x => 0 < x < NUM_LIMIT) l -> list_product l mod NUM_LIMIT <> 0.
Proof.
  induction 1 as [|x l Hx _ IH].
  - vm_compute. discriminate.
  - rewrite list_product_cons, <- Z.mul_mod_idemp_r by (unfold NUM_LIMIT; lia).
    apply mul_mod_nonzero; [exact Hx|].
    pose proof (Z.mod_pos_bound (list_product l) NUM_LIMIT ltac:(reflexivity)).
    lia.
Qed.

Lemma list_product_zero (l : list Z) : 0 ∈ l -> list_product l = 0.
Proof.
  induction l as [|x l IH]; intros Hin; [inversion Hin|].
  rewrite list_product_cons.
  apply elem_of_cons in Hin as [<-|Hin]; [reflexivity|].
  rewrite IH by exact Hin. apply Z.mul_0_r.
Qed.

(** For cells from 0 to [NUM_LIMIT - 1] the product modulo [NUM_LIMIT]
    is in that range too, and is 0 exactly when a cell is 0. *)
Lemma list_product_mod_zero_iff (l : list Z) :
  Forall (fun x => 0 <= x < NUM_LIMIT) l ->
  Forall safe_factor l /\
  Z.rem (list_product l) NUM_LIMIT = list_product l mod NUM_LIMIT /\
  0 <= list_product l mod NUM_LIMIT < NUM_LIMIT /\
  (list_product l mod NUM_LIMIT = 0 <-> 0 ∈ l).
Proof.
  intros Hall. split; [|split; [|split]].
  - eapply Forall_impl; [exact Hall|]. intros x Hx. simpl in Hx.
    apply reduced_safe. unfold reduced. lia.
  - apply Z.rem_mod_nonneg; [|reflexivity]. apply list_product_nonneg.
    eapply Forall_impl; [exact Hall|]. intros x Hx. simpl in Hx. lia.
  - apply Z.mod_pos_bound. reflexivity.
  - split.
    + intros Hz. destruct (decide (0 ∈ l)) as [Hin|Hnin]; [exact Hin|].
      exfalso. revert Hz. apply list_product_mod_nonzero.
      apply Forall_forall. intros x Hx.
      rewrite Forall_forall in Hall. specialize (Hall x Hx). simpl in Hall.
      assert (x <> 0) by (intros ->; contradiction). lia.
    + intros Hin. rewrite list_product_zero by exact Hin. reflexivity.
Qed.

End Prime.

(** ** The sequential reducer on any array *)

Section SequentialAny.

Implicit Types (g : list Z) (i p : Z) (n : nat).

Lemma segment_scan_reduced g n i p :
  reduced p -> reduced (segment_scan g n i p).
Proof.
  revert i p. induction n as [|n IH]; intros i p Hp; simpl; [assumption|].
  destruct (decide (array_get g i = 0)).
  - unfold reduced, NUM_LIMIT. lia.
  - apply IH, mod_step_reduced.
Qed.

(** The reads of the loop are consecutive from its first index and at
    most as many as its iterations. *)
Lemma SqFindProd_loop_reads_prefix g n i p :
  exists k : nat, (k <= n)%nat /\
                  (SqFindProd_loop g n i p).1 = seqZ i (Z.of_nat k).
Proof.
  revert i p. induction n as [|n IH]; intros i p.
  - exists 0%nat. split; [lia|reflexivity].
  - simpl. destruct (decide (array_get g i = 0)).
    + exists 1%nat. split; [lia|reflexivity].
    + destruct (IH (i + 1) (mod_step p (array_get g i))) as (k & Hk & Hreads).
      destruct (SqFindProd_loop g n (i + 1) (mod_step p (array_get g i)))
        as [rd r].
      exists (S k). split; [lia|]. simpl in *.
      rewrite Hreads, (seqZ_cons i) by lia. do 2 f_equal; lia.
Qed.

(** X3: whatever the array and the size, [SqFindProd] reads consecutive
    cells from index 0, never an index outside [0, size), and returns a
    value strictly between [- NUM_LIMIT] and [NUM_LIMIT]; for a size of 0
    or less it reads nothing and returns 1. *)
Theorem SqFindProd_reads_in_range (gData : list Z) (size : Z) :
  (exists k, 0 <= k <= Z.max size 0 /\
             SqFindProd_reads gData size = seqZ 0 k) /\
  (forall i, i ∈ SqFindProd_reads gData size -> 0 <= i < size) /\
  - NUM_LIMIT < SqFindProd gData size < NUM_LIMIT /\
  (size <= 0 ->
   SqFindProd gData size = 1 /\ SqFindProd_reads gData size = []).
Proof.
  destruct (SqFindProd_loop_reads_prefix gData (Z.to_nat size) 0 1)
    as (k & Hk & Hreads).
  fold (SqFindProd_run gData size) in Hreads.
  fold (SqFindProd_reads gData size) in Hreads.
  split; [|split; [|split]].
  - exists (Z.of_nat k). split; [lia|exact Hreads].
  - intros i Hi. rewrite Hreads in Hi. apply elem_of_seqZ in Hi. lia.
  - unfold SqFindProd, SqFindProd_run. rewrite SqFindProd_loop_result.
    pose proof (segment_scan_reduced gData (Z.to_nat size) 0 1 reduced_1) as Hr.
    unfold reduced in Hr. lia.
  - intros Hsize. unfold SqFindProd, SqFindProd_reads, SqFindProd_run.
    replace (Z.to_nat size) with 0%nat by lia. split; reflexivity.
Qed.

(** X4: on the first [size] cells of an array, all of them from 0 to
    [NUM_LIMIT - 1], [SqFindProd] returns a value from 0 to
    [NUM_LIMIT - 1] that is 0 if and only if one of the cells is 0:
    [NUM_LIMIT] is prime, so a product of non-zero cells is never a
    multiple of it. *)
Theorem SqFindProd_zero_iff (gData : list Z) (size : Z) :
  0 <= size <= Z.of_nat (length gData) ->
  Forall (fun x => 0 <= x < NUM_LIMIT) (take (Z.to_nat size) gData) ->
  0 <= SqFindProd gData size < NUM_LIMIT /\
  (SqFindProd gData size = 0 <-> 0 ∈ take (Z.to_nat size) gData).
Proof.
  intros Hsize Hall.
  destruct (list_product_mod_zero_iff _ Hall) as (Hsafe & Hrem & Hrange & Hiff).
  rewrite SqFindProd_cells, Hrem by assumption.
  split; assumption.
Qed.

Lemma SqFindProd_zero_iff_witness :
  0 <= 3 <= Z.of_nat (length [2; 3; 4; 0]) /\
  0 <= SqFindProd [2; 3; 4; 0] 3 < NUM_LIMIT /\
  (SqFindProd [2; 3; 4; 0] 3 = 0 <-> 0 ∈ take 3 [2; 3; 4; 0]).
Proof.
  assert (0 <= 3 <= Z.of_nat (length [2; 3; 4; 0])) as Hsize by (simpl; lia).
  split; [exact Hsize|].
  apply (SqFindProd_zero_iff [2; 3; 4; 0] 3 Hsize).
  unfold NUM_LIMIT. repeat constructor; simpl; lia.
Defined.

End SequentialAny.

(** ** Initialisation and aggregation on any state *)

Section SharedVars.

Implicit Types (st : Shared) (n : nat).

Lemma InitSharedVars_loop_form n :
  forall (pre old post : list Z) (pre' old' post' : list bool) st,
    gThreadProd st = pre ++ old ++ post ->
    gThreadDone st = pre' ++ old' ++ post' ->
    length old = n -> length old' = n -> length pre' = length pre ->
    InitSharedVars_loop n (Z.of_nat (length pre)) st
    = mkShared (gData st) (gThreadCount st) (gDoneThreadCount st)
               (pre ++ replicate n 1 ++ post)
               (pre' ++ replicate n false ++ post')
               (completed st) (mutex st).
Proof.
  induction n as [|n IH];
    intros pre old post pre' old' post' st Hprod Hdone Hlen Hlen' Hpre.
  - destruct old; [|discriminate]. destruct old'; [|discriminate].
    destruct st. simpl in *. subst. reflexivity.
  - destruct old as [|o old]; [discriminate|].
    destruct old' as [|o' old']; [discriminate|].
    injection Hlen as Hlen. injection Hlen' as Hlen'.
    cbn [InitSharedVars_loop].
    set (st1 := set_gThreadProd _ (set_gThreadDone _ st)).
    assert (gThreadProd st1 = (pre ++ [1]) ++ old ++ post) as Hprod1.
    { unfold st1. cbn [set_gThreadProd set_gThreadDone gThreadProd].
      rewrite Hprod. change ((o :: old) ++ post) with (o :: old ++ post).
      rewrite array_set_middle, <- app_assoc. reflexivity. }
    assert (gThreadDone st1 = (pre' ++ [false]) ++ old' ++ post') as Hdone1.
    { unfold st1. cbn [set_gThreadProd set_gThreadDone gThreadDone].
      rewrite Hdone, <- Hpre.
      change ((o' :: old') ++ post') with (o' :: old' ++ post').
      rewrite array_set_middle, <- app_assoc. reflexivity. }
    replace (Z.of_nat (length pre) + 1) with (Z.of_nat (length (pre ++ [1])))
      by (rewrite length_app; simpl; lia).
    rewrite (IH _ _ _ _ _ _ st1 Hprod1 Hdone1 Hlen Hlen')
      by (rewrite !length_app, Hpre; reflexivity).
    rewrite <- !app_assoc. reflexivity.
Qed.

Lemma InitSharedVars_form st :
  gThreadCount st <= Z.of_nat (length (gThreadProd st)) ->
  gThreadCount st <= Z.of_nat (length (gThreadDone st)) ->
  InitSharedVars st
  = mkShared (gData st) (gThreadCount st) 0
      (replicate (Z.to_nat (gThreadCount st)) 1
         ++ drop (Z.to_nat (gThreadCount st)) (gThreadProd st))
      (replicate (Z.to_nat (gThreadCount st)) false
         ++ drop (Z.to_nat (gThreadCount st)) (gThreadDone st))
      (completed st) (mutex st).
Proof.
  intros Hprod Hdone. unfold InitSharedVars.
  set (n := Z.to_nat (gThreadCount st)).
  pose proof (InitSharedVars_loop_form n [] (take n (gThreadProd st))
                (drop n (gThreadProd st)) [] (take n (gThreadDone st))
                (drop n (gThreadDone st)) st) as Hloop.
  cbn [length app] in Hloop. change (Z.of_nat 0) with 0 in Hloop.
  rewrite Hloop.
  - reflexivity.
  - rewrite take_drop. reflexivity.
  - rewrite take_drop. reflexivity.
  - rewrite length_take. lia.
  - rewrite length_take. lia.
  - reflexivity.
Qed.

(** X5: when [gThreadProd] and [gThreadDone] have at least
    [gThreadCount] cells, [InitSharedVars] sets the first [gThreadCount]
    cells of [gThreadProd] to 1 and of [gThreadDone] to false and
    [gDoneThreadCount] to 0, whatever they held, and changes nothing
    else: the later cells, [gData], [gThreadCount] and the semaphores
    stay; calling it a second time changes nothing more. *)
Theorem InitSharedVars_resets (st : Shared) :
  gThreadCount st <= Z.of_nat (length (gThreadProd st)) ->
  gThreadCount st <= Z.of_nat (length (gThreadDone st)) ->
  let n := Z.to_nat (gThreadCount st) in
  let st' := InitSharedVars st in
  gThreadProd st' = replicate n 1 ++ drop n (gThreadProd st) /\
  gThreadDone st' = replicate n false ++ drop n (gThreadDone st) /\
  gDoneThreadCount st' = 0 /\
  gData st' = gData st /\ gThreadCount st' = gThreadCount st /\
  completed st' = completed st /\ mutex st' = mutex st /\
  InitSharedVars st' = st'.
Proof.
  intros Hprod Hdone n st'.
  pose proof (InitSharedVars_form st Hprod Hdone) as Hform.
  fold st' n in Hform.
  assert (length (gThreadProd st') = length (gThreadProd st)) as Hlp.
  { rewrite Hform. cbn [gThreadProd].
    rewrite length_app, length_replicate, length_drop. lia. }
  assert (length (gThreadDone st') = length (gThreadDone st)) as Hld.
  { rewrite Hform. cbn [gThreadDone].
    rewrite length_app, length_replicate, length_drop. lia. }
  assert (gThreadCount st' = gThreadCount st) as HT
    by (rewrite Hform; reflexivity).
  repeat (split; [rewrite Hform; reflexivity|]).
  rewrite (InitSharedVars_form st') by lia.
  rewrite HT. fold n. rewrite Hform at 6. cbn [gThreadProd gThreadDone gData
    gThreadCount completed mutex]. rewrite Hform.
  cbn [gThreadProd gThreadDone gData gThreadCount completed mutex].
  rewrite !drop_app_length' by (rewrite length_replicate; reflexivity).
  reflexivity.
Qed.

Lemma InitSharedVars_resets_witness :
  let st := mkShared [5; 6] 2 7 [0; 24; 9] [true; true; true] 3 1 in
  InitSharedVars st = mkShared [5; 6] 2 0 [1; 1; 9] [false; false; true] 3 1 /\
  InitSharedVars (InitSharedVars st) = InitSharedVars st.
Proof.
  intros st. split; [reflexivity|].
  assert (gThreadCount st <= Z.of_nat (length (gThreadProd st))) as Hp
    by (simpl; lia).
  assert (gThreadCount st <= Z.of_nat (length (gThreadDone st))) as Hd
    by (simpl; lia).
  destruct (InitSharedVars_resets st Hp Hd) as (_ & _ & _ & _ & _ & _ & _ & H).
  exact H.
Defined.

End SharedVars.

Section Aggregate.

Implicit Types (g : list Z) (st : Shared) (n : nat).

Lemma cells_lookup g i n (j : nat) :
  (j < n)%nat -> cells g i n !! j = Some (array_get g (i + Z.of_nat j)).
Proof.
  intros Hj. unfold cells. rewrite list_lookup_fmap.
  rewrite lookup_seqZ_lt by lia. reflexivity.
Qed.

Lemma cells_eq_array_get g g' i n j :
  cells g i n = cells g' i n -> i <= j < i + Z.of_nat n ->
  array_get g j = array_get g' j.
Proof.
  intros Heq Hj.
  assert (cells g i n !! Z.to_nat (j - i) = cells g' i n !! Z.to_nat (j - i))
    as Hl by (rewrite Heq; reflexivity).
  rewrite !cells_lookup in Hl by lia.
  injection Hl as Hl. rewrite Z2Nat.id in Hl by lia.
  replace (i + (j - i)) with j in Hl by lia. exact Hl.
Qed.

Lemma ComputeTotalProduct_loop_reduced g n i p :
  reduced p -> reduced (ComputeTotalProduct_loop g n i p).
Proof.
  revert i p. induction n as [|n IH]; intros i p Hp; simpl; [assumption|].
  apply IH, mod_step_reduced.
Qed.

Lemma ComputeTotalProduct_cells st :
  Forall safe_factor (cells (gThreadProd st) 0 (Z.to_nat (gThreadCount st))) ->
  ComputeTotalProduct st
  = Z.rem (list_product
             (cells (gThreadProd st) 0 (Z.to_nat (gThreadCount st))))
          NUM_LIMIT.
Proof.
  intros Hsafe. unfold ComputeTotalProduct.
  rewrite ComputeTotalProduct_loop_product by auto using reduced_1.
  rewrite Z.mul_1_l. reflexivity.
Qed.

(** X6: [ComputeTotalProduct] looks at the first [gThreadCount] cells of
    [gThreadProd] and at nothing else; it returns 1 when [gThreadCount] is
    0 or less, and always a value strictly between [- NUM_LIMIT] and
    [NUM_LIMIT]; when these cells are all from 0 to [NUM_LIMIT - 1] it
    returns their product modulo [NUM_LIMIT], which is 0 if and only if
    one of them is 0. *)
Theorem ComputeTotalProduct_partials (st : Shared) :
  let n := Z.to_nat (gThreadCount st) in
  let partials := cells (gThreadProd st) 0 n in
  (gThreadCount st <= 0 -> ComputeTotalProduct st = 1) /\
  - NUM_LIMIT < ComputeTotalProduct st < NUM_LIMIT /\
  (forall st', gThreadCount st' = gThreadCount st ->
               cells (gThreadProd st') 0 n = partials ->
               ComputeTotalProduct st' = ComputeTotalProduct st) /\
  (Forall (fun x => 0 <= x < NUM_LIMIT) partials ->
   ComputeTotalProduct st = list_product partials mod NUM_LIMIT /\
   0 <= ComputeTotalProduct st /\
   (ComputeTotalProduct st = 0 <-> 0 ∈ partials)).
Proof.
  intros n partials. split; [|split; [|split]].
  - intros HT. unfold ComputeTotalProduct.
    replace (Z.to_nat (gThreadCount st)) with 0%nat by lia. reflexivity.
  - pose proof (ComputeTotalProduct_loop_reduced (gThreadProd st) n 0 1
                                                 reduced_1) as Hr.
    unfold reduced in Hr. unfold ComputeTotalProduct. fold n. lia.
  - intros st' HT Hcells. unfold ComputeTotalProduct. rewrite HT. fold n.
    apply ComputeTotalProduct_loop_ext. intros j Hj.
    apply (cells_eq_array_get _ _ 0 n); [exact Hcells|lia].
  - intros Hall.
    destruct (list_product_mod_zero_iff _ Hall) as (Hsafe & Hrem & Hrange & Hiff).
    rewrite ComputeTotalProduct_cells by exact Hsafe. fold n partials.
    rewrite Hrem. split; [reflexivity|]. split; [lia|exact Hiff].
Qed.

Lemma ComputeTotalProduct_partials_witness :
  let st := mkShared [] 3 0 [24; 0; 35; 77] [] 0 0 in
  Forall (fun x => 0 <= x < NUM_LIMIT) (cells (gThreadProd st) 0 3) /\
  ComputeTotalProduct st = 0 /\
  ComputeTotalProduct (set_gThreadProd [24; 2; 35; 0] st) = 1680.
Proof.
  intros st.
  assert (Forall (fun x => 0 <= x < NUM_LIMIT) (cells (gThreadProd st) 0 3))
    as Hall.
  { change (cells (gThreadProd st) 0 3) with [24; 0; 35].
    unfold NUM_LIMIT. repeat (apply Forall_cons; split; [lia|]).
    constructor. }
  split; [exact Hall|].
  destruct (ComputeTotalProduct_partials st) as (_ & _ & _ & Hprod).
  destruct (Hprod Hall) as (_ & _ & Hzero).
  split; [|reflexivity].
  apply Hzero. vm_compute. apply elem_of_cons. right.
  apply elem_of_cons. left. reflexivity.
Defined.

Lemma list_product_Permutation (l l' : list Z) :
  l ≡ₚ l' -> list_product l = list_product l'.
Proof.
  induction 1 as [|x l l' _ IH|x y l|l l' l'' _ IH1 _ IH2].
  - reflexivity.
  - rewrite !list_product_cons, IH. reflexivity.
  - rewrite !list_product_cons. ring.
  - congruence.
Qed.

(** X7: the order of the partial products does not matter: two states
    with the same thread count whose first [gThreadCount] cells of
    [gThreadProd] are a rearrangement of each other, all in the safe
    range of the multiplication, give the same [ComputeTotalProduct]. *)
Theorem ComputeTotalProduct_any_order (st st' : Shared) :
  gThreadCount st' = gThreadCount st ->
  cells (gThreadProd st') 0 (Z.to_nat (gThreadCount st))
    ≡ₚ cells (gThreadProd st) 0 (Z.to_nat (gThreadCount st)) ->
  Forall safe_factor (cells (gThreadProd st) 0 (Z.to_nat (gThreadCount st))) ->
  ComputeTotalProduct st' = ComputeTotalProduct st.
Proof.
  intros HT Hperm Hsafe.
  rewrite (ComputeTotalProduct_cells st) by exact Hsafe.
  rewrite (ComputeTotalProduct_cells st').
  - rewrite HT, (list_product_Permutation _ _ Hperm). reflexivity.
  - rewrite HT. rewrite Hperm. exact Hsafe.
Qed.

Lemma ComputeTotalProduct_any_order_witness :
  let st := mkShared [] 3 0 [24; 5; 35; 1] [] 0 0 in
  let st' := mkShared [] 3 0 [35; 24; 5; 9] [] 0 0 in
  ComputeTotalProduct st' = ComputeTotalProduct st.
Proof.
  intros st st'.
  apply (ComputeTotalProduct_any_order st st').
  - reflexivity.
  - change ([35; 24; 5] ≡ₚ [24; 5; 35]).
    apply (Permutation_app_comm [35] [24; 5]).
  - change (Forall safe_factor [24; 5; 35]).
    unfold safe_factor, NUM_LIMIT, Int.max_int.
    repeat (apply Forall_cons; split; [lia|]). constructor.
Defined.

End Aggregate.

(** ** Random draws and the generated array *)

Section GenerateAny.

Variable rand_seq : Z -> nat -> Z.

(** X8: for bounds [x <= y] whose distance fits an [int] and a
    non-negative value of [rand], [GetRand x y] returns a value from [x]
    to [y] and uses up one call of [rand]. *)
Theorem GetRand_in_range (x y : Z) (rs : rand_state) :
  Int.min_int <= x -> x <= y -> y <= Int.max_int -> y - x < Int.max_int ->
  0 <= rand_seq rs.1 rs.2 ->
  x <= (GetRand rand_seq x y rs).1 <= y /\
  (GetRand rand_seq x y rs).2 = (rs.1, S rs.2).
Proof.
  intros Hx Hxy Hy Hd Hr. unfold GetRand, rand. cbn [fst snd].
  split; [|reflexivity].
  unfold Int.min_int, Int.max_int in *.
  rewrite (sub_small y x)
    by (unfold Int.in_range, Int.min_int, Int.max_int; lia).
  rewrite (add_small (y - x) 1)
    by (unfold Int.in_range, Int.min_int, Int.max_int; lia).
  rewrite Z.rem_mod_nonneg by lia.
  pose proof (Z.mod_pos_bound (rand_seq rs.1 rs.2) (y - x + 1) ltac:(lia)).
  rewrite add_small
    by (unfold Int.in_range, Int.min_int, Int.max_int; lia).
  lia.
Qed.

Lemma GenerateInput_loop_length_any n i rs (g : list Z) :
  length (GenerateInput_loop rand_seq n i rs g) = length g.
Proof.
  revert i rs g. induction n as [|n IH]; intros i rs g; [reflexivity|].
  cbn [GenerateInput_loop].
  destruct (GetRand rand_seq 1 MAX_RANDOM_NUMBER rs) as [v rs'].
  rewrite IH. apply length_array_set.
Qed.

Lemma GenerateInput_loop_outside n i rs (g : list Z) j :
  j < i \/ i + Z.of_nat n <= j ->
  array_get (GenerateInput_loop rand_seq n i rs g) j = array_get g j.
Proof.
  revert i rs g. induction n as [|n IH]; intros i rs g Hj; [reflexivity|].
  cbn [GenerateInput_loop].
  destruct (GetRand rand_seq 1 MAX_RANDOM_NUMBER rs) as [v rs'].
  rewrite IH by lia. apply array_get_set_ne. lia.
Qed.

(** What the loop writes does not depend on what the cells held. *)
Lemma GenerateInput_loop_inside n i rs (g g' : list Z) j :
  0 <= i -> i + Z.of_nat n <= Z.of_nat (length g) -> length g' = length g ->
  i <= j < i + Z.of_nat n ->
  array_get (GenerateInput_loop rand_seq n i rs g) j
  = array_get (GenerateInput_loop rand_seq n i rs g') j.
Proof.
  revert i rs g g'.
  induction n as [|n IH]; intros i rs g g' Hi Hlen Hlen' Hj; [lia|].
  cbn [GenerateInput_loop].
  destruct (GetRand rand_seq 1 MAX_RANDOM_NUMBER rs) as [v rs'].
  destruct (decide (j = i)) as [->|Hne].
  - rewrite !GenerateInput_loop_outside by lia.
    rewrite !array_get_set_eq by lia. reflexivity.
  - apply IH; rewrite ?length_array_set; lia.
Qed.

(** X9: on an array of at least [size] cells, [GenerateInput] keeps the
    length, leaves every cell from [size] on as it was, and rewrites
    every cell below [size]: these cells come out the same for any two
    arrays of the same length, whatever they held before, a zero forced
    by an earlier call included. *)
Theorem GenerateInput_overwrites (g g' : list Z) (size indexForZero : Z) :
  0 <= size <= Z.of_nat (length g) -> length g' = length g ->
  let out := GenerateInput rand_seq size indexForZero g in
  length out = length g /\
  (forall j, size <= j -> array_get out j = array_get g j) /\
  (forall j, 0 <= j < size ->
     array_get out j
     = array_get (GenerateInput rand_seq size indexForZero g') j).
Proof.
  intros Hsize Hlen out. unfold out, GenerateInput, GenerateInput_fill.
  destruct (decide (indexForZero >= 0 /\ indexForZero < size)) as [Hz|Hz].
  - split; [|split].
    + rewrite length_array_set. apply GenerateInput_loop_length_any.
    + intros j Hj. rewrite array_get_set_ne by lia.
      apply GenerateInput_loop_outside. lia.
    + intros j Hj. destruct (decide (j = indexForZero)) as [->|Hne].
      * rewrite !array_get_set_eq
          by (rewrite GenerateInput_loop_length_any; lia).
        reflexivity.
      * rewrite !array_get_set_ne by congruence.
        apply GenerateInput_loop_inside; lia.
  - split; [|split].
    + apply GenerateInput_loop_length_any.
    + intros j Hj. apply GenerateInput_loop_outside. lia.
    + intros j Hj. apply GenerateInput_loop_inside; lia.
Qed.

End GenerateAny.

Section GenerateAnyRuns.

Lemma GetRand_in_range_witness :
  -5 <= (GetRand rand_lcg (-5) 5 (srand RANDOM_SEED)).1 <= 5 /\
  (GetRand rand_lcg (-5) 5 (srand RANDOM_SEED)).2 = (RANDOM_SEED, 1%nat).
Proof.
  apply (GetRand_in_range rand_lcg (-5) 5 (srand RANDOM_SEED)).
  - unfold Int.min_int. lia.
  - lia.
  - unfold Int.max_int. lia.
  - unfold Int.max_int. lia.
  - apply rand_lcg_nonneg.
Defined.

Lemma GenerateInput_overwrites_witness :
  let g := [9; 0; 9; 9; 7] in
  let g' := GenerateInput rand_lcg 4 1 g in
  g' = [1711; 0; 525; 1070; 7] /\
  GenerateInput rand_lcg 4 3 g' = [1711; 704; 525; 0; 7] /\
  (forall j, 0 <= j < 4 ->
     array_get (GenerateInput rand_lcg 4 3 g') j
     = array_get (GenerateInput rand_lcg 4 3 g) j).
Proof.
  intros g g'. split; [vm_compute; reflexivity|].
  split; [vm_compute; reflexivity|].
  assert (0 <= 4 <= Z.of_nat (length g')) as Hsize by (simpl; lia).
  assert (length g = length g') as Hlen by reflexivity.
  destruct (GenerateInput_overwrites rand_lcg g' g 4 3 Hsize Hlen)
    as (_ & _ & Hsame).
  exact Hsame.
Defined.

End GenerateAnyRuns.

(** ** The whole run of [main] *)

Section ProgramAny.

Variable rand_seq : Z -> nat -> Z.
Variable atoi : string -> Z.

Lemma main_join_loop_events n i :
  main_join_loop n i = Joined <$> seqZ i (Z.of_nat n).
Proof.
  revert i. induction n as [|n IH]; intros i; [reflexivity|].
  cbn [main_join_loop]. rewrite IH, (seqZ_cons i) by lia.
  rewrite fmap_cons. do 3 f_equal; lia.
Qed.

Lemma main_create_loop_events indices n i params st :
  (main_create_loop indices n i params st).1.1
  = (fun k => Created k RThFindProd
                      (k, seg_start (param_get indices k),
                          seg_end (param_get indices k)))
      <$> seqZ i (Z.of_nat n).
Proof.
  revert i params st. induction n as [|n IH]; intros i params st.
  - reflexivity.
  - cbn [main_create_loop].
    specialize (IH (i + 1)
      (array_set params i
         (i, seg_start (param_get indices i), seg_end (param_get indices i)))
      (ThFindProd (i, seg_start (param_get indices i),
                      seg_end (param_get indices i)) st).2).
    destruct (main_create_loop indices n (i + 1) _ _) as [[evs ps] st'].
    cbn [fst snd] in *. rewrite IH, (seqZ_cons i) by lia.
    rewrite fmap_cons. do 3 f_equal; lia.
Qed.

(** The rows of the partition read back by [main] are the parameter
    blocks it hands to the threads. *)
Lemma created_rows arraySize thrdCnt :
  0 <= arraySize <= Int.max_int -> 1 <= thrdCnt <= MAX_THREADS ->
  (fun k => Created k RThFindProd
              (k, seg_start (param_get (CalculateIndices arraySize thrdCnt
                                                         fresh_rows) k),
                  seg_end (param_get (CalculateIndices arraySize thrdCnt
                                                       fresh_rows) k)))
    <$> seqZ 0 thrdCnt
  = (fun p => Created p.1.1 RThFindProd p)
      <$> take (Z.to_nat thrdCnt) (CalculateIndices arraySize thrdCnt fresh_rows).
Proof.
  intros HN HT.
  assert (1 <= thrdCnt <= Z.of_nat (length fresh_rows)) as HT'
    by (unfold fresh_rows, MAX_THREADS in *; rewrite length_replicate; lia).
  apply list_eq. intros j. rewrite !list_lookup_fmap.
  destruct (decide (Z.of_nat j < thrdCnt)) as [Hj|Hj].
  - rewrite lookup_seqZ_lt by lia.
    rewrite lookup_take_lt by lia.
    pose proof (CalculateIndices_lookup arraySize thrdCnt fresh_rows j
                  HN HT' Hj) as Hrow.
    unfold param in *. rewrite Hrow.
    cbn [fmap option_fmap option_map fst snd].
    unfold param_get. rewrite decide_True by lia.
    unfold param in *. rewrite Z.add_0_l, Nat2Z.id, Hrow. reflexivity.
  - rewrite lookup_seqZ_ge by lia.
    rewrite lookup_take_ge by lia. reflexivity.
Qed.

Lemma main_trace argv st :
  accepted atoi argv ->
  main rand_seq atoi argv st
  = (Report Sequential
       (SqFindProd (GenerateInput rand_seq (atoi (arg argv 1))
                                  (atoi (arg argv 3)) (gData st))
                   (atoi (arg argv 1)))
       :: (((fun p => Created p.1.1 RThFindProd p)
              <$> take (Z.to_nat (atoi (arg argv 2)))
                       (CalculateIndices (atoi (arg argv 1))
                                         (atoi (arg argv 2)) fresh_rows))
           ++ (Joined <$> seqZ 0 (atoi (arg argv 2))))
       ++ [Report JoinBarrier
             (ComputeTotalProduct
                (InitSharedVars
                   (set_gData
                      (GenerateInput rand_seq (atoi (arg argv 1))
                                     (atoi (arg argv 3)) (gData st))
                      (set_gThreadCount (atoi (arg argv 2)) st))));
           Exit 0],
     InitSharedVars
       (set_gData
          (GenerateInput rand_seq (atoi (arg argv 1))
                         (atoi (arg argv 3)) (gData st))
          (set_gThreadCount (atoi (arg argv 2)) st))).
Proof.
  intros (Hargc & HN & HT & Hz). unfold main.
  rewrite decide_False by lia.
  rewrite decide_False by lia.
  rewrite decide_False by (simpl; lia).
  rewrite decide_False by lia.
  cbn zeta.
  set (st1 := set_gData _ (set_gThreadCount _ st)).
  set (indices := CalculateIndices _ _ _).
  pose proof (join_barrier_round_globals indices st1) as Hglobals.
  assert ((join_barrier_round indices st1).1
          = ((fun p => Created p.1.1 RThFindProd p)
               <$> take (Z.to_nat (atoi (arg argv 2)))
                        (CalculateIndices (atoi (arg argv 1))
                                          (atoi (arg argv 2)) fresh_rows))
            ++ (Joined <$> seqZ 0 (atoi (arg argv 2)))) as Hevents.
  { unfold join_barrier_round.
    assert (gThreadCount (InitSharedVars st1) = atoi (arg argv 2)) as HTc.
    { unfold InitSharedVars. simpl. apply InitSharedVars_loop_gThreadCount. }
    rewrite HTc.
    pose proof (main_create_loop_events indices
                  (Z.to_nat (atoi (arg argv 2))) 0 fresh_rows
                  (InitSharedVars st1)) as Hcr.
    destruct (main_create_loop indices _ 0 fresh_rows (InitSharedVars st1))
      as [[created ps] st'].
    cbn [fst snd] in *. rewrite Hcr, main_join_loop_events.
    rewrite Z2Nat.id by lia. unfold indices. cbn [set_gData gThreadCount
      set_gThreadCount].
    rewrite created_rows; [reflexivity | | lia].
    unfold MAX_SIZE, Int.max_int in *. lia. }
  destruct (join_barrier_round indices st1) as [round st2].
  cbn [fst snd] in *. subst round st2. reflexivity.
Qed.

Lemma reports_round p1 p2 code (rows : list param) (js : list Z) :
  reports (Report Sequential p1
             :: (((fun p => Created p.1.1 RThFindProd p) <$> rows)
                 ++ (Joined <$> js))
             ++ [Report JoinBarrier p2; Exit code])
  = [(Sequential, p1); (JoinBarrier, p2)].
Proof.
  assert (reports ((fun p => Created p.1.1 RThFindProd p) <$> rows) = [])
    as Hc by (induction rows as [|x l IHl]; [reflexivity|exact IHl]).
  assert (reports (Joined <$> js) = [])
    as Hj by (induction js as [|x l IHl]; [reflexivity|exact IHl]).
  unfold reports in *. cbn [omap list_omap].
  rewrite !omap_app, Hc, Hj. reflexivity.
Qed.

(** X10: on an accepted command line [main] prints the sequential
    product, then creates one thread per row written by
    [CalculateIndices], in the order of the rows, each running
    [ThFindProd] on its row, then joins the threads in that order, and
    only then prints the second product and exits with 0; the rows are as
    many as the thread count and lie end to end from 0 up to the array
    size. *)
Theorem main_creates_and_joins (argv : list string) (st : Shared) :
  accepted atoi argv ->
  let arraySize := atoi (arg argv 1) in
  let threadCount := atoi (arg argv 2) in
  let rows := take (Z.to_nat threadCount)
                   (CalculateIndices arraySize threadCount fresh_rows) in
  (exists p1 p2,
     (main rand_seq atoi argv st).1
     = Report Sequential p1
         :: (((fun p => Created p.1.1 RThFindProd p) <$> rows)
             ++ (Joined <$> seqZ 0 threadCount))
         ++ [Report JoinBarrier p2; Exit 0]) /\
  Z.of_nat (length rows) = threadCount /\
  laid_out 0 rows arraySize.
Proof.
  intros Hacc arraySize threadCount rows.
  pose proof Hacc as (Hargc & HN & HT & Hz).
  fold arraySize threadCount in HN, HT, Hz.
  assert (0 <= arraySize <= Int.max_int) as HN'
    by (unfold MAX_SIZE, Int.max_int in *; lia).
  assert (1 <= threadCount <= Z.of_nat (length fresh_rows)) as HT'
    by (unfold fresh_rows, MAX_THREADS in *; rewrite length_replicate; lia).
  destruct (CalculateIndices_laid_out arraySize threadCount fresh_rows HN' HT')
    as [Hrows Hlaid].
  split; [|split].
  - rewrite (main_trace argv st Hacc). eexists _, _. reflexivity.
  - unfold rows. rewrite Hrows, length_rows_from. lia.
  - exact Hlaid.
Qed.

Hypothesis rand_nonneg : forall k, 0 <= rand_seq RANDOM_SEED k.

(** The cells [GenerateInput] has written are from 0 to
    [MAX_RANDOM_NUMBER], and 0 at the index for the zero only. *)
Lemma GenerateInput_cells (g : list Z) size indexForZero i :
  0 <= size <= Z.of_nat (length g) -> 0 <= i < size ->
  0 <= array_get (GenerateInput rand_seq size indexForZero g) i
    <= MAX_RANDOM_NUMBER /\
  (array_get (GenerateInput rand_seq size indexForZero g) i = 0
   <-> i = indexForZero).
Proof.
  intros Hsize Hi.
  pose proof (GenerateInput_fill_cell rand_seq rand_nonneg size g i Hsize Hi)
    as Hfill.
  pose proof (Z.mod_pos_bound (rand_seq RANDOM_SEED (Z.to_nat i))
                              MAX_RANDOM_NUMBER ltac:(reflexivity)) as Hb.
  assert (length (GenerateInput_fill rand_seq size g) = length g) as Hlen
    by apply GenerateInput_loop_length_any.
  unfold GenerateInput.
  destruct (decide (indexForZero >= 0 /\ indexForZero < size)) as [Hz|Hz].
  - destruct (decide (i = indexForZero)) as [->|Hne].
    + rewrite array_get_set_eq by lia. unfold MAX_RANDOM_NUMBER. split; [lia|tauto].
    + rewrite array_get_set_ne by congruence. rewrite Hfill.
      unfold MAX_RANDOM_NUMBER in *. split; [lia|]. split; [lia|congruence].
  - rewrite Hfill. unfold MAX_RANDOM_NUMBER in *. split; lia.
Qed.

(** X11: when [rand] returns non-negative values and the globals have
    room for the array and the threads, an accepted run reports two
    products: the sequential one, which is from 0 to [NUM_LIMIT - 1] and
    is 0 exactly when an index for the zero (not -1) was given, and the
    one of the round of threads, which is always 1. *)
Theorem main_reported_products (argv : list string) (st : Shared) :
  accepted atoi argv ->
  atoi (arg argv 1) <= Z.of_nat (length (gData st)) ->
  MAX_THREADS <= Z.of_nat (length (gThreadProd st)) ->
  exists p,
    reports (main rand_seq atoi argv st).1
    = [(Sequential, p); (JoinBarrier, 1)] /\
    0 <= p < NUM_LIMIT /\
    (p = 0 <-> 0 <= atoi (arg argv 3)).
Proof.
  intros Hacc Hcap Hslots.
  pose proof Hacc as (Hargc & HN & HT & Hz).
  set (arraySize := atoi (arg argv 1)) in *.
  set (indexForZero := atoi (arg argv 3)) in *.
  set (g := GenerateInput rand_seq arraySize indexForZero (gData st)).
  assert (length g = length (gData st)) as Hlen.
  { unfold g, GenerateInput.
    destruct (decide _); rewrite ?length_array_set;
      apply GenerateInput_loop_length_any. }
  assert (take (Z.to_nat arraySize) g = cells g 0 (Z.to_nat arraySize))
    as Htake by (rewrite cells_take; [reflexivity|lia]).
  assert (Forall (fun x => 0 <= x < NUM_LIMIT) (take (Z.to_nat arraySize) g))
    as Hall.
  { rewrite Htake. unfold cells. apply Forall_fmap, Forall_forall.
    intros i Hi. apply elem_of_seqZ in Hi. simpl.
    destruct (GenerateInput_cells (gData st) arraySize indexForZero i)
      as [Hrange _]; [lia|lia|].
    fold g in Hrange. unfold MAX_RANDOM_NUMBER, NUM_LIMIT in *. lia. }
  destruct (list_product_mod_zero_iff _ Hall) as (Hsafe & Hrem & Hrange & Hiff).
  exists (SqFindProd g arraySize). split; [|split].
  - rewrite (main_trace argv st Hacc). cbn [fst].
    fold arraySize indexForZero g.
    rewrite reports_round.
    rewrite ComputeTotalProduct_InitSharedVars; [reflexivity|].
    cbn [set_gData set_gThreadCount gThreadCount gThreadProd]. lia.
  - rewrite SqFindProd_cells, Hrem by (assumption || lia). exact Hrange.
  - rewrite SqFindProd_cells, Hrem by (assumption || lia). rewrite Hiff.
    rewrite Htake. unfold cells. rewrite list_elem_of_fmap. split.
    + intros (i & Hzero & Hi). apply elem_of_seqZ in Hi.
      destruct (GenerateInput_cells (gData st) arraySize indexForZero i)
        as [_ Hz0]; [lia|lia|].
      fold g in Hz0. symmetry in Hzero. apply Hz0 in Hzero. lia.
    + intros Hidx. exists indexForZero. split.
      * symmetry.
        apply (GenerateInput_cells (gData st) arraySize indexForZero);
          [lia|lia|reflexivity].
      * apply elem_of_seqZ. lia.
Qed.

End ProgramAny.

Section ProgramAnyRuns.

Lemma accepted_example :
  accepted atoi_decimal ["MTFindProd"; "5"; "2"; "3"]%string.
Proof.
  unfold accepted. repeat split; vm_compute; (reflexivity || discriminate).
Qed.

Lemma main_creates_and_joins_witness :
  (main rand_lcg atoi_decimal ["MTFindProd"; "5"; "2"; "3"]%string
        (start_state 5)).1
  = [Report Sequential 0;
     Created 0 RThFindProd (0, 0, 2); Created 1 RThFindProd (1, 3, 4);
     Joined 0; Joined 1; Report JoinBarrier 1; Exit 0] /\
  laid_out 0 (take 2 (CalculateIndices 5 2 fresh_rows)) 5.
Proof.
  split; [vm_compute; reflexivity|].
  exact (proj2 (proj2 (main_creates_and_joins rand_lcg atoi_decimal _
                         (start_state 5) accepted_example))).
Defined.

Lemma main_reported_products_witness :
  exists p,
    reports (main rand_lcg atoi_decimal ["MTFindProd"; "5"; "2"; "3"]%string
                  (start_state 5)).1
    = [(Sequential, p); (JoinBarrier, 1)] /\
    0 <= p < NUM_LIMIT /\ (p = 0 <-> 0 <= 3).
Proof.
  apply (main_reported_products rand_lcg atoi_decimal
           (rand_lcg_nonneg RANDOM_SEED) _ (start_state 5) accepted_example).
  - vm_compute. discriminate.
  - vm_compute. discriminate.
Defined.

End ProgramAnyRuns.

(** ** More on the worker with semaphores *)

Section WorkerAny.

Implicit Types (g : list Z) (rows : list param) (st : Shared).

(** X12: on a segment whose cells are all from 0 to [NUM_LIMIT - 1],
    the product the worker computes is in that range and is 0 exactly
    when a cell of the segment is 0; it is 1 on an empty segment.  A
    worker that meets a zero does not wait for the mutex: it returns,
    with one post on [completed] and the counter untouched, even while
    the mutex is taken; a worker without a zero cannot return while the
    mutex is taken. *)
Theorem ThFindProdWithSemaphore_on_zero (threadNum start end_ : Z)
    (st : Shared) :
  Forall (fun x => 0 <= x < NUM_LIMIT)
         (cells (gData st) start (span start end_)) ->
  let localProd := segment_product (gData st) start end_ in
  let seg := cells (gData st) start (span start end_) in
  0 <= localProd < NUM_LIMIT /\
  (localProd = 0 <-> 0 ∈ seg) /\
  (end_ < start -> localProd = 1) /\
  (0 ∈ seg ->
   exists st',
     ThFindProdWithSemaphore (threadNum, start, end_) st
     = Some ([StoreProd threadNum 0; SemPost Completed], st') /\
     mutex st' = mutex st /\
     gDoneThreadCount st' = gDoneThreadCount st /\
     completed st' = completed st + 1) /\
  (0 ∉ seg -> mutex st <= 0 ->
   ThFindProdWithSemaphore (threadNum, start, end_) st = None).
Proof.
  intros Hall localProd seg.
  destruct (list_product_mod_zero_iff _ Hall) as (Hsafe & Hrem & Hrange & Hiff).
  assert (localProd = list_product seg mod NUM_LIMIT) as Hval.
  { unfold localProd. rewrite segment_product_cells by exact Hsafe.
    exact Hrem. }
  split; [rewrite Hval; exact Hrange|].
  split; [rewrite Hval; exact Hiff|].
  split; [|split].
  - intros Hempty. unfold localProd, segment_product, segment_run, span.
    replace (Z.to_nat (end_ - start + 1)) with 0%nat by lia. reflexivity.
  - intros Hin. unfold ThFindProdWithSemaphore. fold localProd.
    assert (localProd = 0) as Hz by (rewrite Hval; apply Hiff, Hin).
    rewrite decide_True by exact Hz. rewrite Hz.
    eexists. split; [reflexivity|]. repeat split.
  - intros Hnin Hmutex. unfold ThFindProdWithSemaphore. fold localProd.
    assert (localProd <> 0) as Hnz.
    { rewrite Hval. intros Hz. apply Hnin, Hiff, Hz. }
    rewrite decide_False by exact Hnz.
    unfold sem_wait. rewrite decide_False; [reflexivity|].
    cbn [sem_value set_gThreadProd mutex]. lia.
Qed.

Lemma ThFindProdWithSemaphore_on_zero_witness :
  let st := mkShared [2; 0; 4] 2 0 (replicate 16 1) (replicate 16 false) 0 0 in
  exists st',
    ThFindProdWithSemaphore (1, 1, 2) st
    = Some ([StoreProd 1 0; SemPost Completed], st') /\
    mutex st' = mutex st /\
    gDoneThreadCount st' = gDoneThreadCount st /\
    completed st' = completed st + 1.
Proof.
  intros st.
  assert (Forall (fun x => 0 <= x < NUM_LIMIT)
                 (cells (gData st) 1 (span 1 2))) as Hall.
  { change (cells (gData st) 1 (span 1 2)) with [0; 4].
    unfold NUM_LIMIT. repeat (apply Forall_cons; split; [lia|]). constructor. }
  destruct (ThFindProdWithSemaphore_on_zero 1 1 2 st Hall)
    as (_ & _ & _ & Hzero & _).
  apply Hzero. change (cells (gData st) 1 (span 1 2)) with [0; 4].
  apply elem_of_cons. left. reflexivity.
Defined.

End WorkerAny.

(** ** Rounds of workers with semaphores on any partition *)

Section RoundAny.

Implicit Types (g : list Z) (rows : list param) (st : Shared).

Lemma laid_out_le a rows b : laid_out a rows b -> a <= b.
Proof.
  revert a. induction rows as [|p rows IH]; simpl; intros a Hl.
  - lia.
  - destruct Hl as (Hs & Hne & Hl). apply IH in Hl. lia.
Qed.

Lemma cells_laid_out g a rows b :
  laid_out a rows b ->
  concat ((fun p => cells g (seg_start p) (span (seg_start p) (seg_end p)))
            <$> rows)
  = cells g a (Z.to_nat (b - a)).
Proof.
  revert a. induction rows as [|p rows IH]; intros a Hl.
  - simpl in Hl. subst b. rewrite Z.sub_diag. reflexivity.
  - destruct Hl as (Hs & Hne & Hl).
    pose proof (laid_out_le _ _ _ Hl) as Hle.
    rewrite fmap_cons. cbn [concat]. rewrite (IH _ Hl), Hs.
    replace (Z.to_nat (b - a))
      with (span a (seg_end p) + Z.to_nat (b - (seg_end p + 1)))%nat
      by (unfold span; lia).
    rewrite cells_app. do 2 f_equal. unfold span. lia.
Qed.

(** Folding the products of segments laid end to end, empty ones
    included, gives what [SqFindProd] returns on the range. *)
Lemma aggregate_laid_out g rows size :
  laid_out 0 rows size -> size <= Z.of_nat (length g) ->
  Forall safe_factor (take (Z.to_nat size) g) ->
  ComputeTotalProduct_loop (partial_products g rows) (length rows) 0 1
  = SqFindProd g size.
Proof.
  intros Hl Hsize Hsafe.
  pose proof (laid_out_le _ _ _ Hl) as H0.
  pose proof (cells_laid_out g _ _ _ Hl) as Hcat.
  rewrite Z.sub_0_r, cells_take in Hcat by lia.
  set (segs := (fun p => cells g (seg_start p) (span (seg_start p) (seg_end p)))
                 <$> rows) in *.
  assert (Forall (Forall safe_factor) segs) as Hsegs.
  { rewrite <- Hcat in Hsafe. clear -Hsafe.
    induction segs as [|l ls IH]; [constructor|].
    cbn [concat] in Hsafe. apply Forall_app in Hsafe as [Hl Hls].
    constructor; auto. }
  assert (partial_products g rows
          = (fun x => Z.rem x NUM_LIMIT) <$> (list_product <$> segs)) as Hpp.
  { unfold partial_products, segs in *. clear -Hsegs.
    induction rows as [|p rows IH]; [reflexivity|].
    rewrite !fmap_cons in *. apply Forall_cons in Hsegs as [Hp Hrest].
    rewrite IH by exact Hrest. f_equal.
    apply segment_product_cells, Hp. }
  rewrite SqFindProd_cells by (assumption || lia).
  rewrite <- Hcat, list_product_concat, <- rem_list_product_rem, <- Hpp.
  replace (length rows) with (length (partial_products g rows))
    by (unfold partial_products; apply length_fmap).
  rewrite ComputeTotalProduct_loop_product.
  - rewrite cells_all, Z.mul_1_l. reflexivity.
  - apply reduced_1.
  - rewrite cells_all, Hpp. apply Forall_fmap, Forall_forall.
    intros x _. apply reduced_safe, reduced_rem.
Qed.

Lemma rows_own_slots arraySize thrdCnt (indices : list param) :
  0 <= arraySize <= Int.max_int ->
  1 <= thrdCnt <= Z.of_nat (length indices) ->
  own_slots (take (Z.to_nat thrdCnt)
                  (CalculateIndices arraySize thrdCnt indices)).
Proof.
  intros HN HT i p Hi.
  pose proof (lookup_lt_Some _ _ _ Hi) as Hlt. rewrite length_take in Hlt.
  rewrite lookup_take_lt in Hi by lia.
  rewrite CalculateIndices_lookup in Hi by (assumption || lia).
  injection Hi as <-. reflexivity.
Qed.

(** X13: for any thread count from 1 to [MAX_THREADS], also above the
    array size, and cells in the safe range of the multiplication: when
    after [InitSharedVars] the workers [ThFindProdWithSemaphore] run on
    the rows of [CalculateIndices], one after the other with the mutex
    free at the start, every one returns, the array is unchanged and
    [ComputeTotalProduct] returns what [SqFindProd] returns on the
    array. *)
Theorem semaphore_round_any_thread_count (arraySize : Z) (st : Shared) :
  1 <= gThreadCount st <= MAX_THREADS ->
  0 <= arraySize <= Z.of_nat (length (gData st)) ->
  arraySize <= Int.max_int ->
  gThreadCount st <= Z.of_nat (length (gThreadProd st)) ->
  0 < mutex st ->
  Forall safe_factor (take (Z.to_nat arraySize) (gData st)) ->
  let rows := take (Z.to_nat (gThreadCount st))
                   (CalculateIndices arraySize (gThreadCount st) fresh_rows) in
  exists st',
    run_in_turn rows (InitSharedVars st) = Some st' /\
    gData st' = gData st /\
    ComputeTotalProduct st' = SqFindProd (gData st) arraySize.
Proof.
  intros HT HN Hmax Hslots Hmutex Hsafe rows.
  set (T := gThreadCount st) in *.
  assert (1 <= T <= Z.of_nat (length fresh_rows)) as HT'
    by (unfold fresh_rows, MAX_THREADS in *; rewrite length_replicate; lia).
  destruct (CalculateIndices_laid_out arraySize T fresh_rows) as [Hrows Hlaid];
    [lia|exact HT'|].
  fold rows in Hrows, Hlaid.
  assert (length rows = Z.to_nat T) as Hlr
    by (rewrite Hrows; apply length_rows_from).
  pose proof (rows_own_slots arraySize T fresh_rows ltac:(lia) HT') as Hown.
  fold rows in Hown.
  set (st0 := InitSharedVars st).
  assert (gData st0 = gData st) as Hdata0
    by (unfold st0, InitSharedVars; simpl; apply InitSharedVars_loop_gData).
  assert (gThreadCount st0 = T) as HT0
    by (unfold st0, InitSharedVars; simpl; apply InitSharedVars_loop_gThreadCount).
  assert (length (gThreadProd st0) = length (gThreadProd st)) as Hlen0
    by (unfold st0, InitSharedVars; simpl; apply InitSharedVars_loop_length).
  assert (mutex st0 = mutex st) as Hmutex0
    by (unfold st0, InitSharedVars; simpl; apply InitSharedVars_loop_mutex).
  destruct (run_in_turn_products rows []
              (take (Z.to_nat T) (gThreadProd st0))
              (drop (Z.to_nat T) (gThreadProd st0)) st0)
    as (st' & Hrun & Hprod & Hdata & HT2).
  - rewrite app_nil_l, take_drop. reflexivity.
  - rewrite length_take, Hlr. lia.
  - intros j p Hj. rewrite (Hown j p Hj). simpl. lia.
  - lia.
  - exists st'. split; [exact Hrun|]. split; [congruence|].
    unfold ComputeTotalProduct. rewrite HT2, HT0, Hprod, app_nil_l, Hdata0.
    rewrite <- Hlr.
    rewrite (ComputeTotalProduct_loop_ext _ (partial_products (gData st) rows)).
    + apply aggregate_laid_out; [exact Hlaid|lia|exact Hsafe].
    + intros j Hj. apply array_get_app_l.
      unfold partial_products. rewrite length_fmap. lia.
Qed.

Lemma semaphore_round_any_thread_count_witness :
  let st := mkShared [6; 7] 3 0 (replicate 16 0) (replicate 16 false) 0 1 in
  exists st',
    run_in_turn (take 3 (CalculateIndices 2 3 fresh_rows)) (InitSharedVars st)
    = Some st' /\
    gData st' = [6; 7] /\
    ComputeTotalProduct st' = SqFindProd [6; 7] 2.
Proof.
  intros st.
  apply (semaphore_round_any_thread_count 2 st).
  - unfold MAX_THREADS. simpl. lia.
  - simpl. lia.
  - unfold Int.max_int. lia.
  - simpl. lia.
  - simpl. lia.
  - change (Forall safe_factor [6; 7]).
    unfold safe_factor, NUM_LIMIT, Int.max_int.
    repeat (apply Forall_cons; split; [lia|]). constructor.
Defined.

End RoundAny.

(** ** What a round posts and counts *)

Section RoundSignals.

Implicit Types (g : list Z) (rows : list param) (st : Shared).

Lemma ThFindProdWithSemaphore_counts p st :
  0 < mutex st ->
  exists tr st',
    ThFindProdWithSemaphore p st = Some (tr, st') /\
    gData st' = gData st /\ gThreadCount st' = gThreadCount st /\
    mutex st' = mutex st /\
    (segment_product (gData st) (seg_start p) (seg_end p) = 0 ->
     gDoneThreadCount st' = gDoneThreadCount st /\
     completed st' = completed st + 1) /\
    (segment_product (gData st) (seg_start p) (seg_end p) <> 0 ->
     gDoneThreadCount st' = Int.add (gDoneThreadCount st) 1 /\
     completed st'
     = completed st
       + (if decide (Int.add (gDoneThreadCount st) 1 = gThreadCount st)
          then 1 else 0)).
Proof.
  intros Hmutex. destruct p as [[threadNum start] end_].
  unfold ThFindProdWithSemaphore, seg_start, seg_end. cbn [fst snd].
  destruct (decide (segment_product (gData st) start end_ = 0)) as [Hz|Hnz].
  - eexists _, _. split; [reflexivity|]. repeat split; try contradiction.
  - unfold sem_wait. rewrite decide_True by exact Hmutex.
    match goal with
    | |- context [decide (gDoneThreadCount ?s = gThreadCount ?s)] =>
        destruct (decide (gDoneThreadCount s = gThreadCount s)) as [Hl|Hl]
    end.
    + eexists _, _. split; [reflexivity|].
      split; [reflexivity|]. split; [reflexivity|]. split; [simpl; lia|].
      split; [intros Hz; contradiction|]. intros _. split; [reflexivity|].
      rewrite decide_True by exact Hl. reflexivity.
    + eexists _, _. split; [reflexivity|].
      split; [reflexivity|]. split; [reflexivity|]. split; [simpl; lia|].
      split; [intros Hz; contradiction|]. intros _. split; [reflexivity|].
      rewrite decide_False by exact Hl. simpl. lia.
Qed.

Lemma zero_count_cons x (l : list Z) :
  zero_count (x :: l)
  = ((if decide (x = 0%Z) then 1 else 0) + zero_count l)%nat.
Proof.
  unfold zero_count. rewrite filter_cons.
  destruct (decide (x = 0)); reflexivity.
Qed.

Lemma zero_count_le (l : list Z) : (zero_count l <= length l)%nat.
Proof. unfold zero_count. apply length_filter. Qed.

Lemma run_in_turn_counts rows :
  forall st c,
    gDoneThreadCount st = c -> 0 <= c ->
    c + Z.of_nat (length rows) <= gThreadCount st ->
    gThreadCount st <= Int.max_int -> 0 < mutex st ->
    exists st',
      run_in_turn rows st = Some st' /\
      gData st' = gData st /\ gThreadCount st' = gThreadCount st /\
      mutex st' = mutex st /\
      gDoneThreadCount st'
      = c + Z.of_nat (length rows)
        - Z.of_nat (zero_count (partial_products (gData st) rows)) /\
      completed st'
      = completed st
        + Z.of_nat (zero_count (partial_products (gData st) rows))
        + (if decide (zero_count (partial_products (gData st) rows) = 0%nat
                      /\ 1 <= Z.of_nat (length rows)
                      /\ c + Z.of_nat (length rows) = gThreadCount st)
           then 1 else 0).
Proof.
  induction rows as [|p rows IH]; intros st c Hc Hc0 Hroom Hmax Hmutex.
  - exists st. split; [reflexivity|].
    change (partial_products (gData st) []) with (@nil Z).
    change (zero_count []) with 0%nat.
    change (length (@nil param)) with 0%nat.
    rewrite decide_False by lia.
    repeat split; try reflexivity; lia.
  - destruct (ThFindProdWithSemaphore_counts p st Hmutex)
      as (tr & st1 & Hrun & Hdata & HT & Hm & Hzero & Hnonzero).
    cbn [run_in_turn]. rewrite Hrun.
    unfold partial_products. rewrite fmap_cons. fold (partial_products (gData st) rows).
    rewrite zero_count_cons.
    pose proof (zero_count_le (partial_products (gData st) rows)) as Hzle.
    unfold partial_products in Hzle at 2. rewrite length_fmap in Hzle.
    cbn [length] in Hroom |- *.
    destruct (decide (segment_product (gData st) (seg_start p) (seg_end p) = 0))
      as [Hz|Hnz].
    + destruct (Hzero Hz) as [Hcnt Hcompl].
      destruct (IH st1 c) as (st' & Hrun' & Hdata' & HT' & Hm' & Hcnt' & Hcompl');
        try lia.
      rewrite Hdata in *.
      exists st'. split; [exact Hrun'|].
      split; [congruence|]. split; [congruence|]. split; [congruence|].
      split; [lia|].
      rewrite Hcompl', Hcompl, HT.
      repeat match goal with |- context [decide ?P] => destruct (decide P) end;
        lia.
    + destruct (Hnonzero Hnz) as [Hcnt Hcompl].
      rewrite Hc in Hcnt, Hcompl.
      rewrite add_small in Hcnt, Hcompl
        by (unfold Int.in_range, Int.min_int, Int.max_int in *; lia).
      destruct (IH st1 (c + 1))
        as (st' & Hrun' & Hdata' & HT' & Hm' & Hcnt' & Hcompl'); try lia.
      rewrite Hdata in *.
      exists st'. split; [exact Hrun'|].
      split; [congruence|]. split; [congruence|]. split; [congruence|].
      split; [lia|].
      rewrite Hcompl', Hcompl, HT.
      repeat match goal with |- context [decide ?P] => destruct (decide P) end;
        lia.
Qed.

(** X14: in a round of as many workers as [gThreadCount], at least one,
    started with the counter at 0 and the mutex free and run one worker
    after the other, every worker returns; at the end
    [gDoneThreadCount] is the number of workers whose product is not 0,
    never above [gThreadCount]; [completed] has been posted once if no
    product is 0 and otherwise once per product that is 0, so at least
    once; the mutex is free again. *)
Theorem semaphore_round_signals (rows : list param) (st : Shared) :
  gDoneThreadCount st = 0 ->
  gThreadCount st = Z.of_nat (length rows) ->
  1 <= gThreadCount st <= Int.max_int -> 0 < mutex st ->
  let zeros := Z.of_nat (zero_count (partial_products (gData st) rows)) in
  exists st',
    run_in_turn rows st = Some st' /\
    gDoneThreadCount st' = gThreadCount st - zeros /\
    0 <= gDoneThreadCount st' <= gThreadCount st /\
    completed st' = completed st + (if decide (zeros = 0) then 1 else zeros) /\
    completed st + 1 <= completed st' /\
    mutex st' = mutex st.
Proof.
  intros Hc HT Hrange Hmutex zeros.
  destruct (run_in_turn_counts rows st 0 Hc) as
    (st' & Hrun & _ & _ & Hm & Hcnt & Hcompl); try lia.
  pose proof (zero_count_le (partial_products (gData st) rows)) as Hzle.
  unfold partial_products in Hzle at 2. rewrite length_fmap in Hzle.
  fold zeros in Hcnt, Hcompl.
  exists st'. split; [exact Hrun|].
  assert (completed st'
          = completed st + (if decide (zeros = 0) then 1 else zeros)) as Hcompl2.
  { rewrite Hcompl.
    repeat match goal with |- context [decide ?P] => destruct (decide P) end;
      lia. }
  split; [lia|]. split; [lia|]. split; [exact Hcompl2|].
  split; [|exact Hm].
  rewrite Hcompl2. destruct (decide (zeros = 0)); lia.
Qed.

Lemma semaphore_round_signals_witness :
  let st := mkShared [6; 0; 7; 0] 4 0 (replicate 16 1) (replicate 16 false) 0 1 in
  let rows := [(0, 0, 0); (1, 1, 1); (2, 2, 2); (3, 3, 3)] in
  exists st',
    run_in_turn rows st = Some st' /\
    gDoneThreadCount st' = 4 - 2 /\
    completed st' = 0 + 2.
Proof.
  intros st rows.
  assert (gDoneThreadCount st = 0) as Hc by reflexivity.
  assert (gThreadCount st = Z.of_nat (length rows)) as HT by reflexivity.
  assert (1 <= gThreadCount st <= Int.max_int) as Hr
    by (unfold Int.max_int; simpl; lia).
  assert (0 < mutex st) as Hm by (simpl; lia).
  destruct (semaphore_round_signals rows st Hc HT Hr Hm)
    as (st' & Hrun & Hcnt & _ & Hcompl & _).
  exists st'. split; [exact Hrun|]. split; [exact Hcnt|exact Hcompl].
Defined.

End RoundSignals.

(** ** Rounds under any interleaving *)

Section AnySchedule.

Implicit Types (st : Shared) (pcs : list pc) (l : pc) (p : param)
         (params : list param).

Lemma reachable_mutex_inv params st0 n s :
  mutex st0 = 1 ->
  rtc (sys_step params) (st0, replicate n AtStart) s -> mutex_inv s.
Proof.
  intros Hm. revert s.
  apply (rtc_ind_r (R := sys_step params) (fun s => mutex_inv s)
                   (st0, replicate n AtStart)).
  - apply mutex_inv_start, Hm.
  - intros s s' _ Hstep IH. exact (sys_step_mutex_inv _ _ _ Hstep IH).
Qed.

(** X15: in a round started with the mutex free, however the steps of
    the threads interleave, the mutex is worth 0 or 1, at most one thread
    is between its wait and its post on the mutex, and while one is there
    the mutex is 0 and no step of another thread changes
    [gDoneThreadCount] or enters that part: the counter a thread
    compares with [gThreadCount] is the one its own increment wrote. *)
Theorem round_counter_is_protected params (st0 : Shared) (n : nat)
    (st : Shared) (pcs : list pc) :
  mutex st0 = 1 ->
  rtc (sys_step params) (st0, replicate n AtStart) (st, pcs) ->
  0 <= mutex st <= 1 /\
  (forall (i j : nat) li lj,
     pcs !! i = Some li -> pcs !! j = Some lj ->
     in_critical li = true -> in_critical lj = true -> i = j) /\
  (forall (i : nat) li,
     pcs !! i = Some li -> in_critical li = true ->
     mutex st = 0 /\
     forall (j : nat) p lj acts lj' st',
       j <> i -> pcs !! j = Some lj ->
       worker_step p lj st = Some (acts, lj', st') ->
       gDoneThreadCount st' = gDoneThreadCount st /\
       in_critical lj' = false).
Proof.
  intros Hm Hreach.
  pose proof (reachable_mutex_inv params st0 n _ Hm Hreach) as Hinv.
  split; [exact (mutex_inv_nonneg _ _ Hinv)|]. split.
  - intros i j li lj Hi Hj Hci Hcj.
    exact (mutual_exclusion params st0 n st pcs i j li lj Hm Hreach
                            Hi Hj Hci Hcj).
  - intros i li Hi Hci. split.
    + destruct Hinv as [[_ Hnone]|[Hm0 _]]; cbn [fst snd] in *.
      * rewrite (Hnone i li Hi) in Hci. discriminate.
      * exact Hm0.
    + intros j p lj acts lj' st' Hji Hj Hstep.
      exact (counter_protected st pcs i j li lj p acts lj' st'
                               Hinv Hi Hci Hji Hj Hstep).
Qed.

Lemma round_counter_is_protected_witness :
  let st0 := mkShared [2; 3] 2 0 [1; 1] [false; false] 0 1 in
  let params := [(0, 0, 0); (1, 1, 1)] in
  let st := mkShared [2; 3] 2 0 [2; 3] [false; false] 0 0 in
  rtc (sys_step params) (st0, replicate 2 AtStart)
      (st, [AtIncr; AtBranch 3]) /\
  mutex st = 0 /\
  worker_step (1, 1, 1) (AtBranch 3) st = None.
Proof.
  intros st0 params st.
  assert (rtc (sys_step params) (st0, replicate 2 AtStart)
              (st, [AtIncr; AtBranch 3])) as Hreach.
  { eapply rtc_l.
    { eapply (thread_step params 0%nat (0, 0, 0) AtStart); reflexivity. }
    eapply rtc_l.
    { eapply (thread_step params 1%nat (1, 1, 1) AtStart); reflexivity. }
    eapply rtc_l.
    { eapply (thread_step params 0%nat (0, 0, 0) (AtBranch 2)); reflexivity. }
    apply rtc_refl. }
  split; [exact Hreach|].
  destruct (round_counter_is_protected params st0 2 st _ eq_refl Hreach)
    as (_ & _ & Hprot).
  destruct (Hprot 0%nat AtIncr eq_refl eq_refl) as [Hm _].
  split; [exact Hm|reflexivity].
Defined.

Lemma worker_step_frame p l st acts l' st' :
  worker_step p l st = Some (acts, l', st') ->
  gData st' = gData st /\ gThreadCount st' = gThreadCount st /\
  l' <> AtStart /\
  (l <> AtStart -> gThreadProd st' = gThreadProd st) /\
  (l = AtStart ->
   gThreadProd st'
   = array_set (gThreadProd st) p.1.1 (segment_product (gData st) p.1.2 p.2)).
Proof.
  destruct p as [[threadNum start] end_]. unfold worker_step. cbn [fst snd].
  intros Hstep. destruct l.
  - injection Hstep as <- <- <-. repeat split; try discriminate.
    intros Hne. contradiction.
  - destruct (decide (localProd = 0)).
    + injection Hstep as <- <- <-. repeat split; discriminate.
    + unfold sem_wait in Hstep. destruct (decide _); [|discriminate].
      injection Hstep as <- <- <-. repeat split; discriminate.
  - injection Hstep as <- <- <-. repeat split; discriminate.
  - destruct (decide _); injection Hstep as <- <- <-;
      repeat split; discriminate.
  - injection Hstep as <- <- <-. repeat split; discriminate.
  - discriminate.
Qed.

Lemma at_start_dec l : l = AtStart \/ l <> AtStart.
Proof. destruct l; [left; reflexivity|right; discriminate..]. Qed.

Lemma sys_step_published params st0 s s' :
  own_slots params ->
  Z.of_nat (length params) <= Z.of_nat (length (gThreadProd st0)) ->
  sys_step params s s' ->
  published_inv params st0 s -> published_inv params st0 s'.
Proof.
  intros Hown Hroom Hstep (Hdata & HT & Hlen & Hpcs & Hpub).
  destruct Hstep as [i0 p0 l0 acts l0' st st' pcs Hp0 Hl0 Hw].
  cbn [fst snd] in *.
  destruct (worker_step_frame _ _ _ _ _ _ Hw)
    as (Hdata' & HT' & Hl0' & Hsame & Hstore).
  pose proof (Hown i0 p0 Hp0) as Hslot0.
  pose proof (lookup_lt_Some _ _ _ Hp0) as Hi0.
  assert (length (gThreadProd st') = length (gThreadProd st)) as Hlen'.
  { destruct (at_start_dec l0) as [He|Hne].
    - rewrite (Hstore He). apply length_array_set.
    - rewrite (Hsame Hne). reflexivity. }
  unfold published_inv. cbn [fst snd].
  split; [rewrite Hdata'; exact Hdata|].
  split; [rewrite HT'; exact HT|].
  split; [rewrite Hlen'; exact Hlen|].
  split; [rewrite length_insert; exact Hpcs|].
  intros i p l Hp Hl Hnot.
  destruct (decide (i = i0)) as [->|Hne].
  - assert (Some p = Some p0) as [= ->] by (rewrite <- Hp; exact Hp0).
    destruct (at_start_dec l0) as [He|Hne0].
    + rewrite (Hstore He), array_get_set_eq by lia.
      rewrite Hdata. reflexivity.
    + rewrite (Hsame Hne0). exact (Hpub i0 p0 l0 Hp0 Hl0 Hne0).
  - rewrite list_lookup_insert_ne in Hl by congruence.
    pose proof (Hpub i p l Hp Hl Hnot) as Hold.
    destruct (at_start_dec l0) as [He|Hne0].
    + rewrite (Hstore He), array_get_set_ne; [exact Hold|].
      rewrite Hslot0, (Hown i p Hp). lia.
    + rewrite (Hsame Hne0). exact Hold.
Qed.

Lemma reachable_published params st0 s :
  own_slots params ->
  Z.of_nat (length params) <= Z.of_nat (length (gThreadProd st0)) ->
  rtc (sys_step params) (st0, replicate (length params) AtStart) s ->
  published_inv params st0 s.
Proof.
  intros Hown Hroom. revert s.
  apply (rtc_ind_r (R := sys_step params)
                   (fun s => published_inv params st0 s)
                   (st0, replicate (length params) AtStart)).
  - repeat split; cbn [fst snd]; try reflexivity.
    + apply length_replicate.
    + intros i p l _ Hl Hne. apply lookup_replicate in Hl as [-> _].
      contradiction.
  - intros s s' _ Hstep IH.
    exact (sys_step_published _ _ _ _ Hown Hroom Hstep IH).
Qed.

(** X16: for any thread count from 1 to [MAX_THREADS] and cells in the
    safe range of the multiplication: start the workers
    [ThFindProdWithSemaphore] on the rows of [CalculateIndices] after
    [InitSharedVars] and let their steps interleave in any way.  The
    array is never changed, and in any state reached in which all the
    threads have finished, [ComputeTotalProduct] returns what
    [SqFindProd] returns on the array. *)
Theorem semaphore_round_any_schedule (arraySize : Z) (st0 st : Shared)
    (pcs : list pc) :
  1 <= gThreadCount st0 <= MAX_THREADS ->
  0 <= arraySize <= Z.of_nat (length (gData st0)) ->
  arraySize <= Int.max_int ->
  gThreadCount st0 <= Z.of_nat (length (gThreadProd st0)) ->
  Forall safe_factor (take (Z.to_nat arraySize) (gData st0)) ->
  let rows := take (Z.to_nat (gThreadCount st0))
                   (CalculateIndices arraySize (gThreadCount st0) fresh_rows) in
  rtc (sys_step rows)
      (InitSharedVars st0, replicate (Z.to_nat (gThreadCount st0)) AtStart)
      (st, pcs) ->
  gData st = gData st0 /\
  (all_finished pcs ->
   ComputeTotalProduct st = SqFindProd (gData st0) arraySize).
Proof.
  intros HT HN Hmax Hslots Hsafe rows Hreach.
  set (T := gThreadCount st0) in *.
  assert (1 <= T <= Z.of_nat (length fresh_rows)) as HT'
    by (unfold fresh_rows, MAX_THREADS in *; rewrite length_replicate; lia).
  destruct (CalculateIndices_laid_out arraySize T fresh_rows) as [Hrows Hlaid];
    [lia|exact HT'|].
  fold rows in Hrows, Hlaid.
  assert (length rows = Z.to_nat T) as Hlr
    by (rewrite Hrows; apply length_rows_from).
  pose proof (rows_own_slots arraySize T fresh_rows ltac:(lia) HT') as Hown.
  fold rows in Hown.
  set (st1 := InitSharedVars st0) in *.
  assert (gData st1 = gData st0) as Hdata1
    by (unfold st1, InitSharedVars; simpl; apply InitSharedVars_loop_gData).
  assert (gThreadCount st1 = T) as HT1
    by (unfold st1, InitSharedVars; simpl; apply InitSharedVars_loop_gThreadCount).
  assert (length (gThreadProd st1) = length (gThreadProd st0)) as Hlen1
    by (unfold st1, InitSharedVars; simpl; apply InitSharedVars_loop_length).
  rewrite <- Hlr in Hreach.
  destruct (reachable_published rows st1 _ Hown ltac:(lia) Hreach)
    as (Hdata & HTs & Hlen & Hpcs & Hpub).
  cbn [fst snd] in *.
  split; [congruence|].
  intros Hfin. unfold ComputeTotalProduct. rewrite HTs, HT1, <- Hlr.
  rewrite (ComputeTotalProduct_loop_ext _ (partial_products (gData st0) rows)).
  - apply aggregate_laid_out; [exact Hlaid|lia|exact Hsafe].
  - intros j Hj.
    destruct (lookup_lt_is_Some_2 rows (Z.to_nat j)) as [p Hp]; [lia|].
    destruct (lookup_lt_is_Some_2 pcs (Z.to_nat j)) as [l Hl]; [lia|].
    assert (l = Finished) as ->.
    { unfold all_finished in Hfin. rewrite Forall_lookup in Hfin.
      exact (Hfin _ _ Hl). }
    pose proof (Hpub _ _ _ Hp Hl ltac:(discriminate)) as Hcell.
    rewrite (Hown _ _ Hp), Z2Nat.id, Hdata1 in Hcell by lia.
    rewrite Hcell. unfold array_get. rewrite decide_True by lia.
    unfold partial_products. rewrite list_lookup_fmap, Hp. reflexivity.
Qed.

Lemma semaphore_round_any_schedule_witness :
  let st0 := mkShared [0; 5] 2 0 (replicate 16 0) (replicate 16 false) 0 1 in
  let st := mkShared [0; 5] 2 1 (0 :: 5 :: replicate 14 0)
                     (replicate 16 false) 1 1 in
  ComputeTotalProduct st = SqFindProd [0; 5] 2.
Proof.
  intros st0 st.
  assert (rtc (sys_step (take 2 (CalculateIndices 2 2 fresh_rows)))
              (InitSharedVars st0, replicate 2 AtStart)
              (st, [Finished; Finished])) as Hreach.
  { eapply rtc_l.
    { eapply (thread_step _ 1%nat (1, 1, 1) AtStart); reflexivity. }
    eapply rtc_l.
    { eapply (thread_step _ 0%nat (0, 0, 0) AtStart); reflexivity. }
    eapply rtc_l.
    { eapply (thread_step _ 0%nat (0, 0, 0) (AtBranch 0)); reflexivity. }
    eapply rtc_l.
    { eapply (thread_step _ 1%nat (1, 1, 1) (AtBranch 5)); reflexivity. }
    eapply rtc_l.
    { eapply (thread_step _ 1%nat (1, 1, 1) AtIncr); reflexivity. }
    eapply rtc_l.
    { eapply (thread_step _ 1%nat (1, 1, 1) AtCheck); reflexivity. }
    eapply rtc_l.
    { eapply (thread_step _ 1%nat (1, 1, 1) AtUnlock); reflexivity. }
    apply rtc_refl. }
  refine (proj2 (semaphore_round_any_schedule 2 st0 st [Finished; Finished]
                   _ _ _ _ _ Hreach) _).
  - unfold MAX_THREADS. simpl. lia.
  - simpl. lia.
  - unfold Int.max_int. lia.
  - simpl. lia.
  - change (Forall safe_factor [0; 5]).
    unfold safe_factor, NUM_LIMIT, Int.max_int.
    repeat (apply Forall_cons; split; [lia|]). constructor.
  - repeat constructor.
Defined.

End AnySchedule.

(** ** Timing *)

Section Timing.

Lemma long_wrap_small z :
  Long.min_long <= z <= Long.max_long -> Long.wrap z = z.
Proof.
  unfold Long.wrap, Long.min_long, Long.max_long. intros Hz.
  rewrite Z.mod_small; lia.
Qed.

Lemma GetMilliSecondTime_valid t :
  valid_reading t ->
  GetMilliSecondTime t = 1000 * tb_time t + tb_millitm t.
Proof.
  intros [Ht Hm]. unfold GetMilliSecondTime, Long.add, Long.mul.
  rewrite (long_wrap_small (tb_time t * 1000))
    by (unfold Long.min_long, Long.max_long; lia).
  rewrite long_wrap_small by (unfold Long.min_long, Long.max_long; lia).
  lia.
Qed.

(** X17: for two readings of the clock after the Epoch, with
    milliseconds below 1000 and seconds small enough for the count of
    milliseconds to fit a [long], [GetTime] called at the second reading
    after [SetTime] at the first returns the milliseconds between them:
    1000 times the difference of the seconds plus the difference of the
    milliseconds.  It is non-negative exactly when the second reading is
    not earlier than the first, and 0 exactly when the readings are the
    same. *)
Theorem GetTime_elapsed (t0 t1 : timeb) :
  valid_reading t0 -> valid_reading t1 ->
  GetTime (SetTime t0) t1
  = 1000 * (tb_time t1 - tb_time t0) + (tb_millitm t1 - tb_millitm t0) /\
  (0 <= GetTime (SetTime t0) t1 <-> reading_le t0 t1) /\
  (GetTime (SetTime t0) t1 = 0 <-> t0 = t1).
Proof.
  intros H0 H1.
  assert (GetTime (SetTime t0) t1
          = 1000 * (tb_time t1 - tb_time t0)
            + (tb_millitm t1 - tb_millitm t0)) as Hval.
  { unfold GetTime, SetTime, GetCurrentTime, Long.sub.
    rewrite !GetMilliSecondTime_valid by assumption.
    destruct H0 as [Ht0 Hm0], H1 as [Ht1 Hm1].
    rewrite long_wrap_small by (unfold Long.min_long, Long.max_long; lia).
    lia. }
  destruct H0 as [Ht0 Hm0], H1 as [Ht1 Hm1].
  split; [exact Hval|]. rewrite Hval. unfold reading_le. split.
  - lia.
  - split.
    + intros Hz. destruct t0 as [s0 m0], t1 as [s1 m1]. simpl in *.
      assert (s0 = s1) by lia. assert (m0 = m1) by lia. subst. reflexivity.
    + intros ->. lia.
Qed.

Lemma GetTime_elapsed_witness :
  GetTime (SetTime (mkTimeb 1700000000 950)) (mkTimeb 1700000002 30) = 1080.
Proof.
  assert (valid_reading (mkTimeb 1700000000 950)) as H0
    by (unfold valid_reading; simpl; lia).
  assert (valid_reading (mkTimeb 1700000002 30)) as H1
    by (unfold valid_reading; simpl; lia).
  exact (proj1 (GetTime_elapsed _ _ H0 H1)).
Defined.

End Timing.
